(** * Chunk manifests of the filer: resolution, construction, replica fetch

    A shallow embedding of [weed/filer/filechunk_manifest.go] and the
    properties of its three parts: the manifest resolver
    ([ResolveChunkManifest]), the manifest builder ([MaybeManifestize]) and
    the replica fetcher with its retry loop ([retriedFetchChunkData],
    [retriedStreamFetchChunkData]).

    Conventions.
    - Go's [int64], [uint64] and [time.Duration] are [Z] with the
      wrap-around written out ([Int64.wrap]).  Go's [int] holds slice lengths
      and byte counts here; it is [Z] (or [nat] for slice indices) without
      wrap-around, since these values are bounded by the length of a slice
      or by the number of bytes written.
    - A Go result pair [(v, err)] stays a pair, with [option error] for the
      error ([None] is [nil]).
    - The world outside the process (volume servers, the clock, the blob
      store) is an explicit state [World] threaded through every call of a
      collaborator.
    - A loop that is not structural takes fuel; [None] means that the fuel
      ran out, never that the Go function returned. *)

From Stdlib Require Import String Ascii ZArith List Bool Lia Permutation.
Import ListNotations.

Set Implicit Arguments.

(** ** Machine integers *)

Module Int64.
Local Open Scope Z_scope.

Definition modulus : Z := 2 ^ 64.
Definition MaxInt64 : Z := 2 ^ 63 - 1.
Definition MinInt64 : Z := - 2 ^ 63.

(** The representative of [z] modulo [2^64] in the [int64] range. *)
Definition wrap (z : Z) : Z := (z + 2 ^ 63) mod modulus - 2 ^ 63.

Definition add (a b : Z) : Z := wrap (a + b).
Definition sub (a b : Z) : Z := wrap (a - b).

(** The conversions [int64(x)] of a [uint64] and [uint64(x)] of an
    [int64]. *)
Definition of_uint64 (u : Z) : Z := wrap u.
Definition to_uint64 (i : Z) : Z := i mod modulus.

Definition in_range (z : Z) : Prop := MinInt64 <= z <= MaxInt64.
End Int64.

(** ** Data model *)

Definition byte := Byte.byte.

(** A Go [error] value, identified with its message. *)
Definition error := string.

(** [filer_pb.FileChunk], with the fields this file reads or writes.
    [FileId] is what [GetFileIdString] returns. *)
Record FileChunk : Type := mkChunk {
  FileId : string;
  Offset : Z;            (* int64 *)
  Size : Z;              (* uint64 *)
  CipherKey : list byte;
  IsCompressed : bool;
  IsChunkManifest : bool
}.

Definition ManifestBatch : nat := 10000.

(** ** Manifest classifier *)

Fixpoint HasChunkManifest (chunks : list FileChunk) : bool :=
  match chunks with
  | [] => false
  | chunk :: rest => if IsChunkManifest chunk then true else HasChunkManifest rest
  end.

(** The two result slices grow by [append] while the input is walked in
    order. *)
Fixpoint separate_from (chunks manifestChunks nonManifestChunks : list FileChunk)
  : list FileChunk * list FileChunk :=
  match chunks with
  | [] => (manifestChunks, nonManifestChunks)
  | c :: rest =>
      if IsChunkManifest c
      then separate_from rest (manifestChunks ++ [c]) nonManifestChunks
      else separate_from rest manifestChunks (nonManifestChunks ++ [c])
  end.

Definition SeparateManifestChunks (chunks : list FileChunk)
  : list FileChunk * list FileChunk :=
  separate_from chunks [] [].

(** ** Collaborators

    What the file calls but does not define: the transport
    ([util.ReadUrlAsStream]), the clock ([time.Sleep]), the retry ceiling
    ([util.RetryWaitTime]), [url.PathEscape], the wire format
    ([proto.Marshal], [proto.Unmarshal]) and the two hooks of [filer_pb]
    that run on every chunk before encoding and after decoding. *)

(** The outcome of one [ReadUrlAsStream] call: the slices handed to the
    callback, in order, and the returned pair.  The callback returns
    nothing to the transport, so the deliveries do not depend on it. *)
Record ReadResult : Type := mkRead {
  deliveries : list (list byte);
  retryable : bool;
  read_err : option error
}.

Class Collaborators : Type := {
  World : Type;
  ReadUrlAsStream :
    string -> list byte -> bool -> bool -> Z -> Z -> World -> World * ReadResult;
  Sleep : Z -> World -> World;
  RetryWaitTime : Z;
  PathEscape : string -> string;
  Marshal : list FileChunk -> list byte * option error;
  Unmarshal : list byte -> list FileChunk * option error;
  BeforeEntrySerialization : FileChunk -> FileChunk;
  AfterEntryDeserialization : FileChunk -> FileChunk
}.

(** [time.Second], in nanoseconds. *)
Definition time_Second : Z := 1000000000%Z.

(** [strings.Contains(s, "%")]. *)
Fixpoint contains_percent (s : string) : bool :=
  match s with
  | EmptyString => false
  | String c rest => if Ascii.eqb c "%"%char then true else contains_percent rest
  end.

(** ** Replica fetcher *)

(** What the fetcher does to the outside, in order: one event per
    [ReadUrlAsStream] call (with what the call delivered and returned) and
    per [time.Sleep]. *)
Inductive Event : Type :=
| EvRead (url : string) (r : ReadResult)
| EvSleep (d : Z).

Section Fetcher.
Context `{Collaborators}.

(** The variables of one fetch that live across the two loops:
    [shouldRetry], [err], and what the mode accumulates ([payload]: the
    buffer and [n], or the sink and [totalWritten]). *)
Record Session (P : Type) : Type := mkSession {
  world : World;
  payload : P;
  shouldRetry : bool;
  err : option error;
  log : list Event
}.

(** Both functions run the same two nested loops (lines 131-158 and
    169-201); they differ in the body up to the [ReadUrlAsStream] call,
    which is [attempt] here. *)
Section Loops.
Variable P : Type.
Variable attempt : string -> Session P -> Session P.

(** [for _, urlString := range urlStrings]: stop at the first attempt
    that is not retryable or has no error, go on to the next location
    otherwise. *)
Fixpoint try_locations (urlStrings : list string) (s : Session P) : Session P :=
  match urlStrings with
  | [] => s
  | urlString :: rest =>
      let s1 := attempt urlString s in
      if negb (shouldRetry s1) then s1
      else match err s1 with
           | Some _ => try_locations rest s1
           | None => s1
           end
  end.

Definition sleep (waitTime : Z) (s : Session P) : Session P :=
  mkSession (Sleep waitTime (world s)) (payload s) (shouldRetry s) (err s)
            (log s ++ [EvSleep waitTime]).

(** [for waitTime := time.Second; waitTime < util.RetryWaitTime;
    waitTime += waitTime / 2]. *)
Fixpoint retry_rounds (fuel : nat) (waitTime : Z) (urlStrings : list string)
         (s : Session P) : option (Session P) :=
  match fuel with
  | O => None
  | S fuel' =>
      if (waitTime <? RetryWaitTime)%Z then
        let s1 := try_locations urlStrings s in
        match err s1 with
        | Some _ =>
            if shouldRetry s1
            then retry_rounds fuel'
                   (Int64.add waitTime (Z.quot waitTime 2)) urlStrings
                   (sleep waitTime s1)
            else Some s1
        | None => Some s1
        end
      else Some s
  end.
End Loops.

(** *** Range mode *)

(** [copy(buffer[n:], data)]: the bytes copied are the shorter of the two
    lengths. *)
Definition copy_at (buffer : list byte) (n : Z) (data : list byte)
  : list byte * Z :=
  let x := Z.min (Z.of_nat (length buffer) - n) (Z.of_nat (length data)) in
  (firstn (Z.to_nat n) buffer ++ firstn (Z.to_nat x) data
     ++ skipn (Z.to_nat (n + x)) buffer, x).

(** The callback of line 137. *)
Definition range_on_data (bn : list byte * Z) (data : list byte)
  : list byte * Z :=
  let '(buffer, n) := bn in
  if (n <? Z.of_nat (length buffer))%Z then
    let '(buffer', x) := copy_at buffer n data in
    (buffer', (n + x)%Z)
  else (buffer, n).

Definition range_attempt (cipherKey : list byte) (isGzipped isFullChunk : bool)
           (offset : Z) (urlString : string)
           (s : Session (list byte * Z)) : Session (list byte * Z) :=
  let buffer := fst (payload s) in
  let n := 0%Z in
  let urlString :=
    if contains_percent urlString then PathEscape urlString else urlString in
  let '(w, r) :=
    ReadUrlAsStream (urlString ++ "?readDeleted=true")%string cipherKey isGzipped
                    isFullChunk offset (Z.of_nat (length buffer)) (world s) in
  mkSession w (fold_left range_on_data (deliveries r) (buffer, n))
            (retryable r) (read_err r)
            (log s ++ [EvRead urlString r]).

Definition range_session (buffer : list byte) (urlStrings : list string)
           (cipherKey : list byte) (isGzipped isFullChunk : bool) (offset : Z)
           (fuel : nat) (w : World) : option (Session (list byte * Z)) :=
  retry_rounds (range_attempt cipherKey isGzipped isFullChunk offset)
               fuel time_Second urlStrings
               (mkSession w (buffer, 0%Z) false None []).

(** Returns the world, the caller's buffer as the call leaves it, and
    [(n, err)]. *)
Definition retriedFetchChunkData (buffer : list byte) (urlStrings : list string)
           (cipherKey : list byte) (isGzipped isFullChunk : bool) (offset : Z)
           (fuel : nat) (w : World)
  : option (World * list byte * (Z * option error)) :=
  match range_session buffer urlStrings cipherKey isGzipped isFullChunk offset
                      fuel w with
  | None => None
  | Some s => Some (world s, fst (payload s), (snd (payload s), err s))
  end.

(** [wdclient.LookupFileIdFunctionType]. *)
Definition LookupFileIdFunctionType : Type :=
  string -> World -> World * (list string * option error).

Definition fetchChunkRange (buffer : list byte)
           (lookupFileIdFn : LookupFileIdFunctionType) (fileId : string)
           (cipherKey : list byte) (isGzipped : bool) (offset : Z)
           (fuel : nat) (w : World)
  : option (World * list byte * (Z * option error)) :=
  let '(w1, (urlStrings, e)) := lookupFileIdFn fileId w in
  match e with
  | Some e => Some (w1, buffer, (0%Z, Some e))
  | None =>
      retriedFetchChunkData buffer urlStrings cipherKey isGzipped false offset
                            fuel w1
  end.

(** *** Stream mode *)

(** The callback of line 172 on [(sink, totalWritten, localProcesed)];
    the writer is a byte sink that appends, as the [bytes.Buffer] of
    [fetchWholeChunk] does. *)
Definition stream_on_data (st : list byte * Z * Z) (data : list byte)
  : list byte * Z * Z :=
  let '(sink, totalWritten, localProcesed) := st in
  if (totalWritten >? localProcesed)%Z then
    let toBeSkipped := (totalWritten - localProcesed)%Z in
    if (Z.of_nat (length data) <=? toBeSkipped)%Z then
      (sink, totalWritten, (localProcesed + Z.of_nat (length data))%Z)
    else
      let data := skipn (Z.to_nat toBeSkipped) data in
      let localProcesed := (localProcesed + toBeSkipped)%Z in
      (sink ++ data, (totalWritten + Z.of_nat (length data))%Z,
       (localProcesed + Z.of_nat (length data))%Z)
  else
    (sink ++ data, (totalWritten + Z.of_nat (length data))%Z,
     (localProcesed + Z.of_nat (length data))%Z).

Definition stream_attempt (cipherKey : list byte) (isGzipped isFullChunk : bool)
           (offset size : Z) (urlString : string)
           (s : Session (list byte * Z)) : Session (list byte * Z) :=
  let '(sink, totalWritten) := payload s in
  let localProcesed := 0%Z in
  let '(w, r) :=
    ReadUrlAsStream (urlString ++ "?readDeleted=true")%string cipherKey isGzipped
                    isFullChunk offset size (world s) in
  let '(sink', totalWritten', _) :=
    fold_left stream_on_data (deliveries r) (sink, totalWritten, localProcesed) in
  mkSession w (sink', totalWritten') (retryable r) (read_err r)
            (log s ++ [EvRead urlString r]).

Definition stream_session (writer : list byte) (urlStrings : list string)
           (cipherKey : list byte) (isGzipped isFullChunk : bool)
           (offset size : Z) (fuel : nat) (w : World)
  : option (Session (list byte * Z)) :=
  retry_rounds (stream_attempt cipherKey isGzipped isFullChunk offset size)
               fuel time_Second urlStrings
               (mkSession w (writer, 0%Z) false None []).

(** Returns the world, the writer's content and [err]. *)
Definition retriedStreamFetchChunkData (writer : list byte)
           (urlStrings : list string) (cipherKey : list byte)
           (isGzipped isFullChunk : bool) (offset size : Z)
           (fuel : nat) (w : World)
  : option (World * list byte * option error) :=
  match stream_session writer urlStrings cipherKey isGzipped isFullChunk
                       offset size fuel w with
  | None => None
  | Some s => Some (world s, fst (payload s), err s)
  end.

Definition fetchWholeChunk (bytesBuffer : list byte)
           (lookupFileIdFn : LookupFileIdFunctionType) (fileId : string)
           (cipherKey : list byte) (isGzipped : bool)
           (fuel : nat) (w : World)
  : option (World * list byte * option error) :=
  let '(w1, (urlStrings, e)) := lookupFileIdFn fileId w in
  match e with
  | Some e => Some (w1, bytesBuffer, Some e)
  | None =>
      retriedStreamFetchChunkData bytesBuffer urlStrings cipherKey isGzipped
                                  true 0 0 fuel w1
  end.
End Fetcher.

(** ** Manifest resolver *)

Section Resolver.
Context `{Collaborators}.

Variable lookupFileIdFn : LookupFileIdFunctionType.

(** The buffer taken from [bytesBufferPool] is reset before use: the
    fetch starts from an empty one. *)
Definition ResolveOneChunkManifest (chunk : FileChunk) (fuel : nat) (w : World)
  : option (World * (list FileChunk * option error)) :=
  if negb (IsChunkManifest chunk) then Some (w, ([], None))
  else
    match fetchWholeChunk [] lookupFileIdFn (FileId chunk) (CipherKey chunk)
                          (IsCompressed chunk) fuel w with
    | None => None
    | Some (w1, bytesBuffer, Some e) =>
        Some (w1, ([], Some ("fail to read manifest " ++ FileId chunk ++ ": " ++ e)%string))
    | Some (w1, bytesBuffer, None) =>
        let '(m_Chunks, e) := Unmarshal bytesBuffer in
        match e with
        | Some e =>
            Some (w1, ([], Some ("fail to unmarshal manifest " ++ FileId chunk
                                   ++ ": " ++ e)%string))
        | None => Some (w1, (map AfterEntryDeserialization m_Chunks, None))
        end
    end.

(** The range test of line 55, in [int64] arithmetic: [true] when the
    chunk is skipped. *)
Definition out_of_range (chunk : FileChunk) (startOffset stopOffset : Z) : bool :=
  (Z.max (Offset chunk) startOffset
   >=? Z.min (Int64.add (Offset chunk) (Int64.of_uint64 (Size chunk))) stopOffset)%Z.

(** Lines 75 and 76 append [subDataChunks] and [subManifestChunks], two
    names that no line of the file declares; they are parameters here. *)
Variables subDataChunks subManifestChunks : list FileChunk.

Definition ResolveResult : Type :=
  (list FileChunk * list FileChunk * option error)%type.

Section Loop.
(** The recursive call of line 71 and the decode of line 64. *)
Variable recur : list FileChunk -> World -> option (World * ResolveResult).
Variable decode :
  FileChunk -> World -> option (World * (list FileChunk * option error)).
Variable chunks : list FileChunk.
Variables startOffset stopOffset : Z.

(** The body of [for _, chunk := range chunks], with the named results
    [dataChunks] and [manifestChunks] as accumulators.

    Line 71 is a short variable declaration inside the loop body: it
    declares [dataChunks], [manifestChunks] and [subErr] anew in that
    block.  From there to the end of the iteration the two names are
    the block's own variables ([dataChunks'], [manifestChunks'] below),
    so the appends of lines 75 and 76 go to them, and the named
    results, which the next iteration and the final [return] read, are
    what they were after line 69. *)
Fixpoint resolve_loop (rest dataChunks manifestChunks : list FileChunk)
         (w : World) : option (World * ResolveResult) :=
  match rest with
  | [] => Some (w, (dataChunks, manifestChunks, None))
  | chunk :: rest' =>
      if out_of_range chunk startOffset stopOffset
      then resolve_loop rest' dataChunks manifestChunks w
      else if negb (IsChunkManifest chunk)
      then resolve_loop rest' (dataChunks ++ [chunk]) manifestChunks w
      else
        match decode chunk w with
        | None => None
        | Some (w1, (_, Some e)) => Some (w1, (chunks, [], Some e))
        | Some (w1, (resolvedChunks, None)) =>
            let manifestChunks := manifestChunks ++ [chunk] in
            match recur resolvedChunks w1 with
            | None => None
            | Some (w2, (_, _, Some subErr)) => Some (w2, (chunks, [], Some subErr))
            | Some (w2, (dataChunks', manifestChunks', None)) =>
                let dataChunks' := dataChunks' ++ subDataChunks in
                let manifestChunks' := manifestChunks' ++ subManifestChunks in
                resolve_loop rest' dataChunks manifestChunks w2
            end
        end
  end.
End Loop.

Fixpoint ResolveChunkManifest (fuel : nat) (chunks : list FileChunk)
         (startOffset stopOffset : Z) (w : World)
  : option (World * ResolveResult) :=
  match fuel with
  | O => None
  | S fuel' =>
      resolve_loop
        (fun resolvedChunks w' =>
           ResolveChunkManifest fuel' resolvedChunks startOffset stopOffset w')
        (fun chunk w' => ResolveOneChunkManifest chunk fuel' w')
        chunks startOffset stopOffset chunks [] [] w
  end.
End Resolver.

(** ** Manifest builder *)

Section Builder.
Context `{Collaborators}.

(** [SaveDataAsChunkFunctionType]; of its four results the collection and
    the replication are not used here, and the chunk is [nil] exactly
    when the error is not. *)
Definition SaveDataAsChunkFunctionType : Type :=
  list byte -> string -> Z -> World -> World * (error + FileChunk).

(** The type of [mergefn].  The chunks of the batch are shared with the
    caller's slice, so the call also yields them as it leaves them. *)
Definition MergeFunctionType : Type :=
  SaveDataAsChunkFunctionType -> list FileChunk -> World ->
  World * list FileChunk * (error + FileChunk).

(** The body of the loop of lines 251-258 on [(minOffset, maxOffset)]. *)
Definition min_max_step (mm : Z * Z) (chunk : FileChunk) : Z * Z :=
  let '(minOffset, maxOffset) := mm in
  let chunkEnd := Int64.add (Int64.of_uint64 (Size chunk)) (Offset chunk) in
  ((if minOffset >? Offset chunk then Offset chunk else minOffset)%Z,
   (if maxOffset <? chunkEnd then chunkEnd else maxOffset)%Z).

Definition mergeIntoManifest : MergeFunctionType :=
  fun saveFunc dataChunks w =>
  let dataChunks := map BeforeEntrySerialization dataChunks in
  let '(data, serErr) := Marshal dataChunks in
  match serErr with
  | Some serErr => (w, dataChunks, inl ("serializing manifest: " ++ serErr)%string)
  | None =>
      let '(minOffset, maxOffset) :=
        fold_left min_max_step dataChunks (Int64.MaxInt64, Int64.MinInt64) in
      let '(w1, saved) := saveFunc data ""%string 0%Z w in
      match saved with
      | inl e => (w1, dataChunks, inl e)
      | inr manifestChunk =>
          (w1, dataChunks,
           inr (mkChunk (FileId manifestChunk) minOffset
                        (Int64.to_uint64 (Int64.sub maxOffset minOffset))
                        (CipherKey manifestChunk) (IsCompressed manifestChunk)
                        true))
      end
  end.

Section Manifestize.
Variable saveFunc : SaveDataAsChunkFunctionType.
Variable mergeFactor : nat.
Variable mergefn : MergeFunctionType.

(** The loop of lines 223-230 followed by the one of lines 232-234.
    [dataChunks[i:i+mergeFactor]] shares its chunks with [dataChunks],
    which therefore sees what [mergefn] did to them. *)
Fixpoint merge_batches (fuel i : nat) (dataChunks chunks : list FileChunk)
         (remaining : nat) (w : World)
  : option (World * (list FileChunk * option error)) :=
  match fuel with
  | O => None
  | S fuel' =>
      if i + mergeFactor <=? length dataChunks then
        let '(w1, batch, merged) :=
          mergefn saveFunc (firstn mergeFactor (skipn i dataChunks)) w in
        let dataChunks :=
          firstn i dataChunks ++ batch ++ skipn (i + mergeFactor) dataChunks in
        match merged with
        | inl e => Some (w1, (dataChunks, Some e))
        | inr chunk =>
            merge_batches fuel' (i + mergeFactor) dataChunks (chunks ++ [chunk])
                          (remaining - mergeFactor) w1
        end
      else
        Some (w, (chunks ++ skipn (length dataChunks - remaining) dataChunks, None))
  end.

Definition doMaybeManifestize (inputChunks : list FileChunk)
           (fuel : nat) (w : World)
  : option (World * (list FileChunk * option error)) :=
  (* lines 213-220: the loop of [SeparateManifestChunks], written out *)
  let '(chunks, dataChunks) := separate_from inputChunks [] [] in
  merge_batches fuel 0 dataChunks chunks (length dataChunks) w.
End Manifestize.

Definition MaybeManifestize (saveFunc : SaveDataAsChunkFunctionType)
           (inputChunks : list FileChunk) (fuel : nat) (w : World)
  : option (World * (list FileChunk * option error)) :=
  doMaybeManifestize saveFunc ManifestBatch mergeIntoManifest inputChunks fuel w.
End Builder.

(** ** Specification vocabulary *)

(** [chunk.Offset+int64(chunk.Size)] as line 55 computes it. *)
Definition chunk_end (c : FileChunk) : Z :=
  Int64.add (Offset c) (Int64.of_uint64 (Size c)).

(** A chunk whose fields are in the ranges of their types and whose range
    [[Offset, Offset+Size)] lies in the [int64] coordinate space. *)
Definition chunk_fits (c : FileChunk) : Prop :=
  (Int64.in_range (Offset c) /\ 0 <= Size c < Int64.modulus
   /\ Offset c + Size c <= Int64.MaxInt64)%Z.

(** The range test as the specification words it: the chunk contributes
    when [max(offset, start) < min(offset+size, stop)]. *)
Definition range_test (startOffset stopOffset : Z) (c : FileChunk) : bool :=
  (Z.max (Offset c) startOffset <? Z.min (chunk_end c) stopOffset)%Z.

Section Traversal.
Context `{Collaborators}.
Variable lookupFileIdFn : LookupFileIdFunctionType.
Variables startOffset stopOffset : Z.

Inductive Outcome : Type :=
| Done (w : World)
| Failed (w : World) (e : error).

(** The traversal of the specification (section 4.2, steps 1 to 5):
    chunks are visited in order, a chunk failing the range test is
    skipped, a manifest passing it is decoded and its children are
    visited before the rest, and the first decode or fetch that fails
    ends the traversal. *)
Inductive traverse : list FileChunk -> World -> Outcome -> Prop :=
| tr_nil w : traverse [] w (Done w)
| tr_skip c rest w o :
    range_test startOffset stopOffset c = false ->
    traverse rest w o ->
    traverse (c :: rest) w o
| tr_leaf c rest w o :
    range_test startOffset stopOffset c = true ->
    IsChunkManifest c = false ->
    traverse rest w o ->
    traverse (c :: rest) w o
| tr_decode_fails c rest w fuel w1 cs e :
    range_test startOffset stopOffset c = true ->
    IsChunkManifest c = true ->
    ResolveOneChunkManifest lookupFileIdFn c fuel w = Some (w1, (cs, Some e)) ->
    traverse (c :: rest) w (Failed w1 e)
| tr_child_fails c rest w fuel w1 children w2 e :
    range_test startOffset stopOffset c = true ->
    IsChunkManifest c = true ->
    ResolveOneChunkManifest lookupFileIdFn c fuel w = Some (w1, (children, None)) ->
    traverse children w1 (Failed w2 e) ->
    traverse (c :: rest) w (Failed w2 e)
| tr_manifest c rest w fuel w1 children w2 o :
    range_test startOffset stopOffset c = true ->
    IsChunkManifest c = true ->
    ResolveOneChunkManifest lookupFileIdFn c fuel w = Some (w1, (children, None)) ->
    traverse children w1 (Done w2) ->
    traverse rest w2 o ->
    traverse (c :: rest) w o.
(** What the loop returns along a traversal: after a failure the
    caller's list, no manifest and the error; otherwise the chunks of
    the list walked that pass the range test, leaves in one result and
    manifests in the other.  The results of the recursive calls are in
    neither. *)
Definition loop_result (chunks dataChunks manifestChunks rest : list FileChunk)
           (o : Outcome) : World * ResolveResult :=
  match o with
  | Done w' =>
      (w', (dataChunks
              ++ filter (fun c => range_test startOffset stopOffset c
                                  && negb (IsChunkManifest c)) rest,
            manifestChunks
              ++ filter (fun c => range_test startOffset stopOffset c
                                  && IsChunkManifest c) rest,
            None))
  | Failed w' e => (w', (chunks, [], Some e))
  end.
End Traversal.

(** A small store for the examples: locations are file ids, ["m1"] holds
    a manifest of two leaves, ["m3"] a manifest of the manifest ["m2"] and
    a leaf, and the payload of ["m2"] does not decode. *)
Module Store.
Local Open Scope string_scope.

Definition leaf (id : string) (offset size : Z) : FileChunk :=
  mkChunk id offset size [] false false.
Definition manifest (id : string) (offset size : Z) : FileChunk :=
  mkChunk id offset size [] false true.

Definition l1 := leaf "l1" 0 50.
Definition l2 := leaf "l2" 50 50.
Definition l3 := leaf "l3" 100 50.
Definition m1 := manifest "m1" 0 100.
Definition m2 := manifest "m2" 0 50.
Definition m3 := manifest "m3" 0 100.

Definition read (url : string) : ReadResult :=
  if url =? "m1?readDeleted=true" then mkRead [[Byte.x01]] false None
  else if url =? "m2?readDeleted=true" then mkRead [[Byte.x02]] false None
  else if url =? "m3?readDeleted=true" then mkRead [[Byte.x03]] false None
  else mkRead [] false (Some "404 Not Found").

Definition decode (data : list byte) : list FileChunk * option error :=
  match data with
  | [Byte.x01] => ([l1; l2], None)
  | [Byte.x03] => ([m2; l2], None)
  | _ => ([], Some "proto: cannot parse invalid wire-format data")
  end.

Definition collaborators : Collaborators := {|
  World := unit;
  ReadUrlAsStream := fun url _ _ _ _ _ w => (w, read url);
  Sleep := fun _ w => w;
  RetryWaitTime := 6 * time_Second;
  PathEscape := fun s => s;
  Marshal := fun _ => ([], None);
  Unmarshal := decode;
  BeforeEntrySerialization := fun c => c;
  AfterEntryDeserialization := fun c => c
|}.

Definition lookup : @LookupFileIdFunctionType collaborators :=
  fun fileId w => (w, ([fileId], None)).

(** A blob store that accepts everything, and one that is full.  The
    descriptor of a stored blob carries the blob's own length. *)
Definition save : @SaveDataAsChunkFunctionType collaborators :=
  fun data _ _ w => (w, inr (mkChunk "blob" 0 (Z.of_nat (length data)) [] false false)).
Definition save_fails : @SaveDataAsChunkFunctionType collaborators :=
  fun _ _ _ w => (w, inl "no free volumes").

(** [n] leaves of ten bytes each, one after the other from offset 0. *)
Definition leaves (n : nat) : list FileChunk :=
  map (fun i => leaf "l" (10 * Z.of_nat i) 10) (seq 0 n).
End Store.

(** ** Batches *)

(** The first [n] consecutive slices of length [size] of a list. *)
Fixpoint batches_of (n size : nat) (l : list FileChunk) : list (list FileChunk) :=
  match n with
  | O => []
  | S n' => firstn size l :: batches_of n' size (skipn size l)
  end.

(** The full batches of a list: as many slices of length [size] as fit. *)
Definition full_batches (size : nat) (l : list FileChunk) : list (list FileChunk) :=
  batches_of (length l / size) size l.

(** Merging the batches one after the other, each into one manifest
    chunk, up to the first failure: the world after, the manifest chunks
    made, the number of batches handed to the merge, and the error. *)
Fixpoint merge_each `{Collaborators} (saveFunc : SaveDataAsChunkFunctionType)
         (batches : list (list FileChunk)) (w : World)
  : World * list FileChunk * nat * option error :=
  match batches with
  | [] => (w, [], 0, None)
  | batch :: rest =>
      let '(w1, _, merged) := mergeIntoManifest saveFunc batch w in
      match merged with
      | inl e => (w1, [], 1, Some e)
      | inr manifestChunk =>
          let '(w2, manifestChunks, handed, e) := merge_each saveFunc rest w1 in
          (w2, manifestChunk :: manifestChunks, S handed, e)
      end
  end.

(** What the two loops return, given what merging the batches in order
    gives: on success the chunks so far, the manifest chunks made and
    what is left of the list; on a failure the list itself, with the
    chunks of the batches handed to the merge as the hook left them. *)
Definition loop_outcome `{Collaborators} (saveFunc : SaveDataAsChunkFunctionType)
           (mergeFactor : nat) (pre rest chunks : list FileChunk) (n : nat) (w : World)
  : World * (list FileChunk * option error) :=
  match merge_each saveFunc (batches_of n mergeFactor rest) w with
  | (w', manifestChunks, _, None) =>
      (w', (chunks ++ manifestChunks ++ skipn (n * mergeFactor) rest, None))
  | (w', _, handed, Some e) =>
      (w', (pre ++ map BeforeEntrySerialization (firstn (handed * mergeFactor) rest)
                ++ skipn (handed * mergeFactor) rest, Some e))
  end.

(** ** Reading the event log *)

(** A read that came back with [shouldRetry = false]. *)
Definition is_terminal (ev : Event) : bool :=
  match ev with
  | EvRead _ r => negb (retryable r)
  | EvSleep _ => false
  end.

Fixpoint sleeps (l : list Event) : list Z :=
  match l with
  | [] => []
  | EvSleep d :: l' => d :: sleeps l'
  | EvRead _ _ :: l' => sleeps l'
  end.

Fixpoint reads (l : list Event) : list ReadResult :=
  match l with
  | [] => []
  | EvRead _ r :: l' => r :: reads l'
  | EvSleep _ :: l' => reads l'
  end.

(** The result of the last attempt of a session, if there was one. *)
Definition last_read (l : list Event) : option ReadResult :=
  last (map Some (reads l)) None.

(** The wait of round [i]: one second, then half as much again each
    round. *)
Definition wait_at (i : nat) : Z :=
  Nat.iter i (fun waitTime => waitTime + waitTime / 2)%Z time_Second.

(** How a session that ran [k] rounds over [urlStrings] without success
    ends: it slept the [k] waits in order, tried every location in every
    round, and its error is the error of its last attempt. *)
Definition gave_up `{Collaborators} (P : Type) (k : nat) (urlStrings : list string)
           (s : Session P) : Prop :=
  sleeps (log s) = map wait_at (seq 0 k)
  /\ length (reads (log s)) = k * length urlStrings
  /\ err s <> None
  /\ exists r, last_read (log s) = Some r /\ read_err r = err s.

(** No read of the session so far came back with [shouldRetry = false]. *)
Definition clean `{Collaborators} (P : Type) (s : Session P) : Prop :=
  Forall (fun ev => is_terminal ev = false) (log s).

(** A read that came back with [shouldRetry = false] is the last event of
    the session, and its error is the session's. *)
Definition stopped `{Collaborators} (P : Type) (s : Session P) : Prop :=
  forall pre u r post,
    log s = pre ++ EvRead u r :: post -> retryable r = false ->
    post = [] /\ err s = read_err r.

(** A transport that always reports a retryable failure. *)
Definition always_fails `{Collaborators} : Prop :=
  forall url cipherKey isGzipped isFullChunk offset size w,
    let r := snd (ReadUrlAsStream url cipherKey isGzipped isFullChunk offset size w) in
    retryable r = true /\ read_err r <> None.

(** A transport that delivers, on every read, the content of the chunk
    from its first byte up to some point. *)
Definition delivers_prefixes `{Collaborators} (content : list byte) : Prop :=
  forall url cipherKey isGzipped isFullChunk offset size w,
    let r := snd (ReadUrlAsStream url cipherKey isGzipped isFullChunk offset size w) in
    exists m, concat (deliveries r) = firstn m content.

(** The largest number of bytes a read of the log delivered. *)
Definition longest_delivery (l : list Event) : nat :=
  fold_right (fun r m => Nat.max (length (concat (deliveries r))) m) 0 (reads l).

(** What a stream session holds: the sink is the writer's initial content
    followed by the first [m] bytes of the chunk, [m] the count of bytes
    written and the length of the longest delivery so far. *)
Definition written_once `{Collaborators} (content writer : list byte)
           (s : Session (list byte * Z)) : Prop :=
  exists m,
    payload s = (writer ++ firstn m content, Z.of_nat m)
    /\ m <= length content
    /\ m = Nat.min (longest_delivery (log s)) (length content).

(** The buffer and count of a range attempt that started on [buffer0]
    and has been delivered [delivered] so far: the count is the number of
    delivered bytes that fit, the buffer holds them at its front and is
    [buffer0] from the count on. *)
Definition filled (buffer0 delivered : list byte) (bn : list byte * Z) : Prop :=
  let k := Nat.min (length buffer0) (length delivered) in
  length (fst bn) = length buffer0
  /\ snd bn = Z.of_nat k
  /\ firstn k (fst bn) = firstn k delivered
  /\ skipn k (fst bn) = skipn k buffer0.

(** What a range session holds: a buffer of the caller's length and a
    count within it; before any read the caller's buffer and zero, after
    a read what that last read filled. *)
Definition reflects_last_read `{Collaborators} (buffer : list byte)
           (s : Session (list byte * Z)) : Prop :=
  length (fst (payload s)) = length buffer
  /\ (0 <= snd (payload s) <= Z.of_nat (length buffer))%Z
  /\ match last_read (log s) with
     | None => payload s = (buffer, 0%Z)
     | Some r =>
         let k := Nat.min (length buffer) (length (concat (deliveries r))) in
         snd (payload s) = Z.of_nat k
         /\ firstn k (fst (payload s)) = firstn k (concat (deliveries r))
     end.

(** The bytes [a], [a+1], ..., [a+len-1]. *)
Definition byte_range (a len : nat) : list byte :=
  map (fun n => match Byte.of_nat n with Some b => b | None => Byte.x00 end)
      (seq a len).

(** Transports for the examples.  The world is the number of reads made
    so far. *)
Module Down.
(** Every read fails with a retryable error. *)
Definition collaborators : Collaborators := {|
  World := nat;
  ReadUrlAsStream := fun url _ _ _ _ _ w =>
    (S w, mkRead [] true (Some ("connection refused: " ++ url)%string));
  Sleep := fun _ w => w;
  RetryWaitTime := 6 * time_Second;
  PathEscape := fun s => s;
  Marshal := fun _ => ([], None);
  Unmarshal := fun _ => ([], None);
  BeforeEntrySerialization := fun c => c;
  AfterEntryDeserialization := fun c => c
|}.
End Down.

Module Flaky.
(** The first read delivers the bytes [[0,60)] in two slices and fails
    with a retryable error; every later read delivers the bytes
    [[0,100)] from the start and succeeds. *)
Definition read (w : nat) : ReadResult :=
  match w with
  | O => mkRead [byte_range 0 25; byte_range 25 35] true (Some "unexpected EOF"%string)
  | S _ => mkRead [byte_range 0 40; byte_range 40 60] false None
  end.

Definition collaborators : Collaborators := {|
  World := nat;
  ReadUrlAsStream := fun _ _ _ _ _ _ w => (S w, read w);
  Sleep := fun _ w => w;
  RetryWaitTime := 6 * time_Second;
  PathEscape := fun s => s;
  Marshal := fun _ => ([], None);
  Unmarshal := fun _ => ([], None);
  BeforeEntrySerialization := fun c => c;
  AfterEntryDeserialization := fun c => c
|}.
End Flaky.

Module Shrinking.
(** The first read delivers three bytes and fails with a retryable
    error; every later read delivers one byte and succeeds. *)
Definition read (w : nat) : ReadResult :=
  match w with
  | O => mkRead [[Byte.x01; Byte.x02; Byte.x03]] true (Some "unexpected EOF"%string)
  | S _ => mkRead [[Byte.x09]] false None
  end.

Definition collaborators : Collaborators := {|
  World := nat;
  ReadUrlAsStream := fun _ _ _ _ _ _ w => (S w, read w);
  Sleep := fun _ w => w;
  RetryWaitTime := 6 * time_Second;
  PathEscape := fun s => s;
  Marshal := fun _ => ([], None);
  Unmarshal := fun _ => ([], None);
  BeforeEntrySerialization := fun c => c;
  AfterEntryDeserialization := fun c => c
|}.
End Shrinking.

(** ** The trace of a session *)

(** The location a range attempt reads, before the query string is
    appended (lines 134-136). *)
Definition range_url `{Collaborators} (urlString : string) : string :=
  if contains_percent urlString then PathEscape urlString else urlString.

(** An event without what the read returned: the location read, or the
    time slept. *)
Definition shape (ev : Event) : string + Z :=
  match ev with
  | EvRead url _ => inl url
  | EvSleep d => inr d
  end.

(** [j] full rounds from round [i] on: in each, every location is read in
    order and then the wait of the round is slept. *)
Definition full_rounds (locations : list string) (i j : nat) : list (string + Z) :=
  concat (map (fun t => map inl locations ++ [inr (wait_at t)]) (seq i j)).

(** A read that makes the loops go on: it failed, and may be retried. *)
Definition goes_on (ev : Event) : bool :=
  match ev with
  | EvRead _ r => retryable r && match read_err r with Some _ => true | None => false end
  | EvSleep _ => true
  end.

(** The time slept in a session, in nanoseconds. *)
Definition total_sleep (l : list Event) : Z :=
  fold_right Z.add 0%Z (sleeps l).

(** The session's result is what its last read returned (no error when
    nothing was read), and a read that does not make the loops go on is
    the last event. *)
Definition ends_on_last_read `{Collaborators} (P : Type) (s : Session P) : Prop :=
  match last_read (log s) with
  | Some r => shouldRetry s = retryable r /\ err s = read_err r
  | None => err s = None
  end
  /\ forall pre ev post, log s = pre ++ ev :: post -> goes_on ev = false -> post = [].

(** The times slept, read off the shapes of a trace. *)
Fixpoint slept (l : list (string + Z)) : list Z :=
  match l with
  | [] => []
  | inl _ :: l' => slept l'
  | inr d :: l' => d :: slept l'
  end.

(** A store whose one manifest, ["loop"], holds itself. *)
Module Cyclic.
Definition loop : FileChunk := mkChunk "loop" 0 100 [] false true.

Definition collaborators : Collaborators := {|
  World := unit;
  ReadUrlAsStream := fun _ _ _ _ _ _ w => (w, mkRead [[Byte.x01]] false None);
  Sleep := fun _ w => w;
  RetryWaitTime := 6 * time_Second;
  PathEscape := fun s => s;
  Marshal := fun _ => ([], None);
  Unmarshal := fun _ => ([loop], None);
  BeforeEntrySerialization := fun c => c;
  AfterEntryDeserialization := fun c => c
|}.

Definition lookup : @LookupFileIdFunctionType collaborators :=
  fun fileId w => (w, ([fileId], None)).
End Cyclic.

(** * Properties *)

Unset Implicit Arguments.

(** ** Machine integers *)

Lemma wrap_in_range (z : Z) : Int64.in_range z -> Int64.wrap z = z.
Proof.
  unfold Int64.in_range, Int64.wrap, Int64.MinInt64, Int64.MaxInt64, Int64.modulus.
  intros Hz. rewrite Z.mod_small; lia.
Qed.

Lemma wrap_wrap_add (a b : Z) : Int64.wrap (a + Int64.wrap b) = Int64.wrap (a + b).
Proof.
  unfold Int64.wrap, Int64.modulus.
  replace (a + ((b + 2 ^ 63) mod 2 ^ 64 - 2 ^ 63) + 2 ^ 63)%Z
    with (a + (b + 2 ^ 63) mod 2 ^ 64)%Z by lia.
  rewrite Z.add_mod_idemp_r by lia.
  f_equal. f_equal. lia.
Qed.

Lemma chunk_end_fits (c : FileChunk) :
  chunk_fits c -> chunk_end c = (Offset c + Size c)%Z.
Proof.
  unfold chunk_fits, chunk_end, Int64.add, Int64.of_uint64. intros (Ho & Hs & He).
  rewrite wrap_wrap_add. apply wrap_in_range.
  unfold Int64.in_range in *. lia.
Qed.

(** ** The retry loop: more fuel does not change a result *)

Lemma retry_rounds_mono `{Collaborators} (P : Type)
      (attempt : string -> Session P -> Session P) :
  forall fuel waitTime urlStrings s r,
    retry_rounds attempt fuel waitTime urlStrings s = Some r ->
    forall fuel', fuel <= fuel' ->
    retry_rounds attempt fuel' waitTime urlStrings s = Some r.
Proof.
  induction fuel as [|fuel IH]; intros waitTime urlStrings s r Hr fuel' Hle.
  - discriminate.
  - destruct fuel' as [|fuel']; [lia|].
    simpl in *.
    destruct (waitTime <? RetryWaitTime)%Z; [|exact Hr].
    destruct (err (try_locations attempt urlStrings s)); [|exact Hr].
    destruct (shouldRetry (try_locations attempt urlStrings s)); [|exact Hr].
    apply IH with (fuel' := fuel') in Hr; [exact Hr | lia].
Qed.

Lemma fetchWholeChunk_mono `{Collaborators} bytesBuffer lookupFileIdFn fileId
      cipherKey isGzipped :
  forall fuel w r,
    fetchWholeChunk bytesBuffer lookupFileIdFn fileId cipherKey isGzipped fuel w
    = Some r ->
    forall fuel', fuel <= fuel' ->
    fetchWholeChunk bytesBuffer lookupFileIdFn fileId cipherKey isGzipped fuel' w
    = Some r.
Proof.
  unfold fetchWholeChunk, retriedStreamFetchChunkData, stream_session.
  intros fuel w r Hr fuel' Hle.
  destruct (lookupFileIdFn fileId w) as [w1 [urlStrings [e|]]]; [exact Hr|].
  match type of Hr with
  | match ?X with _ => _ end = _ => destruct X as [s|] eqn:Hs; [|discriminate]
  end.
  eapply retry_rounds_mono in Hs; [rewrite Hs; exact Hr | exact Hle].
Qed.

Lemma ResolveOneChunkManifest_mono `{Collaborators} lookupFileIdFn chunk :
  forall fuel w r,
    ResolveOneChunkManifest lookupFileIdFn chunk fuel w = Some r ->
    forall fuel', fuel <= fuel' ->
    ResolveOneChunkManifest lookupFileIdFn chunk fuel' w = Some r.
Proof.
  unfold ResolveOneChunkManifest. intros fuel w r Hr fuel' Hle.
  destruct (negb (IsChunkManifest chunk)); [exact Hr|].
  match type of Hr with
  | match ?X with _ => _ end = _ => destruct X as [x|] eqn:Hx; [|discriminate]
  end.
  eapply fetchWholeChunk_mono in Hx; [rewrite Hx; exact Hr | exact Hle].
Qed.

(** ** Manifest resolver *)

Section ResolverFacts.
Context `{Collaborators}.
Variable lookupFileIdFn : LookupFileIdFunctionType.
Variables subDataChunks subManifestChunks : list FileChunk.
Variables startOffset stopOffset : Z.

Lemma out_of_range_range_test (c : FileChunk) :
  out_of_range c startOffset stopOffset = negb (range_test startOffset stopOffset c).
Proof.
  unfold out_of_range, range_test, chunk_end.
  rewrite Z.geb_leb, Z.ltb_antisym, negb_involutive. reflexivity.
Qed.

Local Abbreviation Resolve fuel :=
  (fun cs w' => ResolveChunkManifest lookupFileIdFn subDataChunks subManifestChunks
                                     fuel cs startOffset stopOffset w').
Local Abbreviation Decode fuel :=
  (fun c w' => ResolveOneChunkManifest lookupFileIdFn c fuel w').
Local Abbreviation loop fuel chunks :=
  (resolve_loop subDataChunks subManifestChunks (Resolve fuel) (Decode fuel)
                chunks startOffset stopOffset).

(** Without a manifest in the list the loop is the range filter. *)
Lemma resolve_loop_leaves recur decode chunks :
  forall rest dataChunks manifestChunks w,
    HasChunkManifest rest = false ->
    resolve_loop subDataChunks subManifestChunks recur decode chunks
                 startOffset stopOffset rest dataChunks manifestChunks w
    = Some (w, (dataChunks ++ filter (range_test startOffset stopOffset) rest,
                manifestChunks, None)).
Proof.
  induction rest as [|c rest IH]; intros d m w Hno; simpl.
  - now rewrite app_nil_r.
  - simpl in Hno. destruct (IsChunkManifest c) eqn:Hc; [discriminate|].
    rewrite out_of_range_range_test.
    destruct (range_test startOffset stopOffset c); simpl.
    + rewrite IH by assumption. now rewrite <- app_assoc.
    + now apply IH.
Qed.

Lemma decode_mono c fuel w r fuel' :
  ResolveOneChunkManifest lookupFileIdFn c fuel w = Some r ->
  fuel <= fuel' ->
  ResolveOneChunkManifest lookupFileIdFn c fuel' w = Some r.
Proof. intros Hr Hle. eapply ResolveOneChunkManifest_mono; eassumption. Qed.

(** The recursive call is the loop run on the children, one unit of
    fuel lower. *)
Lemma resolve_children fuel children w o n :
  (forall fuel', n <= fuel' ->
   forall chunks dataChunks manifestChunks,
     loop fuel' chunks children dataChunks manifestChunks w
     = Some (loop_result startOffset stopOffset chunks dataChunks manifestChunks children o)) ->
  S n <= fuel ->
  ResolveChunkManifest lookupFileIdFn subDataChunks subManifestChunks
                       fuel children startOffset stopOffset w
  = Some (loop_result startOffset stopOffset children [] [] children o).
Proof.
  intros Hloop Hf. destruct fuel as [|fuel]; [lia|].
  cbn [ResolveChunkManifest]. apply Hloop. lia.
Qed.

Lemma resolve_loop_traverse rest w o :
  traverse lookupFileIdFn startOffset stopOffset rest w o ->
  exists n, forall fuel, n <= fuel ->
  forall chunks dataChunks manifestChunks,
    loop fuel chunks rest dataChunks manifestChunks w
    = Some (loop_result startOffset stopOffset chunks dataChunks manifestChunks rest o).
Proof.
  induction 1 as [ w
                 | c rest w o Hr _ [n IH]
                 | c rest w o Hr Hm _ [n IH]
                 | c rest w fuel0 w1 cs e Hr Hm Hd
                 | c rest w fuel0 w1 children w2 e Hr Hm Hd _ [nk IHk]
                 | c rest w fuel0 w1 children w2 o Hr Hm Hd _ [nk IHk] _ [n IH] ].
  - exists 0. intros fuel _ chunks d m. simpl. now rewrite !app_nil_r.
  - exists n. intros fuel Hf chunks d m. simpl.
    rewrite out_of_range_range_test, Hr. simpl. rewrite IH by assumption.
    destruct o; simpl; rewrite ?Hr; reflexivity.
  - exists n. intros fuel Hf chunks d m. simpl.
    rewrite out_of_range_range_test, Hr, Hm. simpl. rewrite IH by assumption.
    destruct o; simpl; rewrite ?Hr, ?Hm; simpl; rewrite <- ?app_assoc; reflexivity.
  - exists fuel0. intros fuel Hf chunks d m. simpl.
    rewrite out_of_range_range_test, Hr, Hm. simpl.
    now rewrite (decode_mono _ _ _ _ _ Hd Hf).
  - exists (Nat.max fuel0 (S nk)). intros fuel Hf chunks d m. simpl.
    rewrite out_of_range_range_test, Hr, Hm. simpl.
    rewrite (decode_mono _ _ _ _ fuel Hd) by lia.
    rewrite (resolve_children fuel children w1 (Failed w2 e) nk) by (lia || assumption).
    reflexivity.
  - exists (Nat.max (Nat.max fuel0 (S nk)) n). intros fuel Hf chunks d m. simpl.
    rewrite out_of_range_range_test, Hr, Hm. simpl.
    rewrite (decode_mono _ _ _ _ fuel Hd) by lia.
    rewrite (resolve_children fuel children w1 (Done w2) nk) by (lia || assumption).
    cbn [loop_result]. rewrite IH by lia.
    destruct o; simpl; rewrite ?Hr, ?Hm; simpl; rewrite <- ?app_assoc; reflexivity.
Qed.

(** On a traversal without failure the call returns the chunks of its
    own list that pass the range test and nothing of what its manifests
    hold. *)
Lemma ResolveChunkManifest_top_level chunks w w' :
  traverse lookupFileIdFn startOffset stopOffset chunks w (Done w') ->
  exists n, forall fuel, n <= fuel ->
    ResolveChunkManifest lookupFileIdFn subDataChunks subManifestChunks
                         fuel chunks startOffset stopOffset w
    = Some (w', (filter (fun c => range_test startOffset stopOffset c
                                  && negb (IsChunkManifest c)) chunks,
                 filter (fun c => range_test startOffset stopOffset c
                                  && IsChunkManifest c) chunks,
                 None)).
Proof.
  intros Ht. destruct (resolve_loop_traverse _ _ _ Ht) as [n Hn].
  exists (S n). intros [|fuel] Hf; [lia|].
  cbn [ResolveChunkManifest]. rewrite Hn by lia. reflexivity.
Qed.

(** An error comes with the caller's list and no manifest, whatever the
    fuel. *)
Lemma resolve_loop_error_shape recur decode chunks :
  forall rest d0 m0 w0 w' d m e,
    resolve_loop subDataChunks subManifestChunks recur decode chunks
                 startOffset stopOffset rest d0 m0 w0
    = Some (w', (d, m, Some e)) ->
    d = chunks /\ m = [].
Proof.
  induction rest as [|c rest IH]; intros d0 m0 w0 w' d m e; simpl.
  - discriminate.
  - destruct (out_of_range c startOffset stopOffset); [apply IH|].
    destruct (negb (IsChunkManifest c)); [apply IH|].
    destruct (decode c w0) as [[w1 [cs [e1|]]]|]; try discriminate.
    + intros [= <- <- <- <-]. auto.
    + destruct (recur cs w1) as [[w2 [[d2 m2] [e2|]]]|]; try discriminate.
      * intros [= <- <- <- <-]. auto.
      * apply IH.
Qed.

Lemma ResolveChunkManifest_error_shape fuel chunks w w' d m e :
  ResolveChunkManifest lookupFileIdFn subDataChunks subManifestChunks
                       fuel chunks startOffset stopOffset w
  = Some (w', (d, m, Some e)) ->
  d = chunks /\ m = [].
Proof.
  destruct fuel as [|fuel]; [discriminate|]. cbn [ResolveChunkManifest].
  apply resolve_loop_error_shape.
Qed.
End ResolverFacts.



(** C4.  When the traversal of the input meets a manifest whose fetch or
    decode fails, at the top level or inside a manifest at any depth,
    [ResolveChunkManifest] returns (for every fuel above a bound) the
    input chunk list as it was given, a [nil] list of traversed
    manifests, and that error. *)
Theorem ResolveChunkManifest_failure `{Collaborators}
        (lookupFileIdFn : LookupFileIdFunctionType)
        (subDataChunks subManifestChunks chunks : list FileChunk)
        (startOffset stopOffset : Z) (w w' : World) (e : error) :
  traverse lookupFileIdFn startOffset stopOffset chunks w (Failed w' e) ->
  exists n, forall fuel, n <= fuel ->
    ResolveChunkManifest lookupFileIdFn subDataChunks subManifestChunks
                         fuel chunks startOffset stopOffset w
    = Some (w', (chunks, [], Some e)).
Proof.
  intros Ht.
  destruct (resolve_loop_traverse lookupFileIdFn subDataChunks subManifestChunks
              startOffset stopOffset _ _ _ Ht) as [n Hn].
  exists (S n). intros [|fuel] Hf; [lia|].
  cbn [ResolveChunkManifest]. rewrite Hn by lia. reflexivity.
Qed.

(** The failure is two levels down: ["m3"] decodes, its child ["m2"] does
    not. *)
Lemma ResolveChunkManifest_failure_witness :
  exists n, forall fuel, n <= fuel ->
    ResolveChunkManifest Store.lookup [] [] fuel
                         [Store.l1; Store.m3; Store.l3] 0 1000 tt
    = Some (tt, ([Store.l1; Store.m3; Store.l3], [],
                 Some ("fail to unmarshal manifest m2: "
                         ++ "proto: cannot parse invalid wire-format data")%string)).
Proof.
  apply (@ResolveChunkManifest_failure Store.collaborators Store.lookup [] []
           [Store.l1; Store.m3; Store.l3] 0 1000 tt tt).
  apply tr_leaf; [reflexivity | reflexivity |].
  apply tr_child_fails with (fuel := 1) (w1 := tt) (children := [Store.m2; Store.l2]);
    [reflexivity | reflexivity | reflexivity |].
  apply tr_decode_fails with (fuel := 1) (cs := []);
    [reflexivity | reflexivity | reflexivity].
Defined.

(** C1.  The call on the single manifest ["m1"] with the range [[0,100)]:
    the manifest is decoded into its two leaves, both pass the range test,
    and the manifest is recorded; the result holds no leaf chunk, whatever
    the two undeclared names of lines 75 and 76 stand for. *)
Theorem ResolveChunkManifest_drops_children
        (subDataChunks subManifestChunks : list FileChunk) :
  ResolveChunkManifest Store.lookup subDataChunks subManifestChunks 2
                       [Store.m1] 0 100 tt
  = Some (tt, ([], [Store.m1], None))
  /\ ResolveOneChunkManifest Store.lookup Store.m1 1 tt
     = Some (tt, ([Store.l1; Store.l2], None))
  /\ filter (range_test 0 100) [Store.l1; Store.l2] = [Store.l1; Store.l2].
Proof. repeat split. Qed.

(** ** The retry loop *)

Lemma sleeps_app (l1 l2 : list Event) : sleeps (l1 ++ l2) = sleeps l1 ++ sleeps l2.
Proof.
  induction l1 as [|[u r|d] l1 IH]; simpl; [reflexivity | exact IH | now rewrite IH].
Qed.

Lemma reads_app (l1 l2 : list Event) : reads (l1 ++ l2) = reads l1 ++ reads l2.
Proof.
  induction l1 as [|[u r|d] l1 IH]; simpl; [reflexivity | now rewrite IH | exact IH].
Qed.

Lemma last_read_read (l : list Event) (u : string) (r : ReadResult) :
  last_read (l ++ [EvRead u r]) = Some r.
Proof.
  unfold last_read. rewrite reads_app, map_app. simpl. apply last_last.
Qed.

Lemma last_read_sleep (l : list Event) (d : Z) :
  last_read (l ++ [EvSleep d]) = last_read l.
Proof.
  unfold last_read. rewrite reads_app. simpl. now rewrite app_nil_r.
Qed.

(** In a log whose events before the last are not terminal, a terminal
    event is the last one. *)
Lemma terminal_is_last (l pre post : list Event) (x y : Event) :
  Forall (fun ev => is_terminal ev = false) l ->
  l ++ [x] = pre ++ y :: post ->
  is_terminal y = true ->
  post = [] /\ y = x.
Proof.
  revert pre. induction l as [|a l IH]; intros pre Hl Heq Hy.
  - destruct pre as [|p pre]; simpl in Heq.
    + inversion Heq; subst. auto.
    + inversion Heq as [[Hp Hnil]]. destruct pre; discriminate.
  - inversion Hl as [|? ? Ha Hl']; subst.
    destruct pre as [|p pre]; simpl in Heq.
    + inversion Heq; subst. congruence.
    + inversion Heq; subst. eapply IH; eauto.
Qed.

Section LoopFacts.
Context `{Collaborators}.
Variable P : Type.
Variable attempt : string -> Session P -> Session P.

(** What both modes' attempts have in common: one read is logged, and
    [shouldRetry] and [err] are what that read returned. *)
Hypothesis attempt_reads : forall u s, exists u' r,
  log (attempt u s) = log s ++ [EvRead u' r]
  /\ shouldRetry (attempt u s) = retryable r
  /\ err (attempt u s) = read_err r.

Local Abbreviation clean := (@clean _ P).
Local Abbreviation stopped := (@stopped _ P).

Lemma clean_stopped s : clean s -> stopped s.
Proof.
  intros Hc pre u r post Hlog Hr. exfalso.
  unfold clean in Hc. rewrite Hlog in Hc.
  apply Forall_app in Hc as [_ Hc]. inversion Hc as [|? ? Hev _]; subst.
  simpl in Hev. rewrite Hr in Hev. discriminate.
Qed.

Lemma try_locations_stopped urlStrings :
  forall s, clean s ->
    stopped (try_locations attempt urlStrings s)
    /\ (shouldRetry (try_locations attempt urlStrings s) = true ->
        clean (try_locations attempt urlStrings s)).
Proof.
  induction urlStrings as [|u rest IH]; intros s Hc; simpl.
  - split; [now apply clean_stopped | auto].
  - destruct (attempt_reads u s) as (u' & r & Hlog & Hsr & Herr).
    destruct (shouldRetry (attempt u s)) eqn:Hs1; simpl.
    + assert (Hc1 : clean (attempt u s)).
      { unfold clean. rewrite Hlog. apply Forall_app. split; [exact Hc|].
        constructor; [|constructor]. simpl. now rewrite <- Hsr. }
      destruct (err (attempt u s)) eqn:He1.
      * now apply IH.
      * split; [now apply clean_stopped | auto].
    + split; [|intros Hx; rewrite Hs1 in Hx; discriminate].
      intros pre u0 r0 post Hlog0 Hr0. rewrite Hlog in Hlog0.
      destruct (terminal_is_last _ _ _ _ _ Hc Hlog0) as [Hpost Hev].
      { simpl. now rewrite Hr0. }
      inversion Hev; subst. split; [reflexivity | exact Herr].
Qed.

Lemma retry_rounds_stopped urlStrings :
  forall fuel waitTime s r,
    clean s ->
    retry_rounds attempt fuel waitTime urlStrings s = Some r ->
    stopped r.
Proof.
  induction fuel as [|fuel IH]; intros waitTime s r Hc Hr; [discriminate|].
  simpl in Hr.
  destruct (waitTime <? RetryWaitTime)%Z.
  - destruct (try_locations_stopped urlStrings s Hc) as [Hst Hcl].
    destruct (err (try_locations attempt urlStrings s)) eqn:He.
    + destruct (shouldRetry (try_locations attempt urlStrings s)) eqn:Hs.
      * apply IH in Hr; [exact Hr|].
        unfold clean, sleep. simpl. apply Forall_app. split; [now apply Hcl|].
        constructor; [reflexivity | constructor].
      * inversion Hr; subst. exact Hst.
    + inversion Hr; subst. exact Hst.
  - inversion Hr; subst. now apply clean_stopped.
Qed.
End LoopFacts.

(** Both attempts log one read and take [shouldRetry] and [err] from it. *)
Lemma range_attempt_reads `{Collaborators} cipherKey isGzipped isFullChunk offset :
  forall u s, exists u' r,
    log (range_attempt cipherKey isGzipped isFullChunk offset u s)
    = log s ++ [EvRead u' r]
    /\ shouldRetry (range_attempt cipherKey isGzipped isFullChunk offset u s)
       = retryable r
    /\ err (range_attempt cipherKey isGzipped isFullChunk offset u s) = read_err r.
Proof.
  intros u s. unfold range_attempt.
  destruct (ReadUrlAsStream _ _ _ _ _ _ _) as [w r].
  eexists. exists r. simpl. auto.
Qed.

Lemma stream_attempt_reads `{Collaborators} cipherKey isGzipped isFullChunk offset size :
  forall u s, exists u' r,
    log (stream_attempt cipherKey isGzipped isFullChunk offset size u s)
    = log s ++ [EvRead u' r]
    /\ shouldRetry (stream_attempt cipherKey isGzipped isFullChunk offset size u s)
       = retryable r
    /\ err (stream_attempt cipherKey isGzipped isFullChunk offset size u s)
       = read_err r.
Proof.
  intros u s. unfold stream_attempt.
  destruct (payload s) as [sink totalWritten].
  destruct (ReadUrlAsStream _ _ _ _ _ _ _) as [w r].
  destruct (fold_left _ _ _) as [[sink' tw'] lp'].
  exists u, r. simpl. auto.
Qed.

(** A first attempt that comes back with [shouldRetry = false] is the
    whole session. *)
Lemma first_attempt_terminal `{Collaborators} (P : Type)
      (attempt : string -> Session P -> Session P) u rest fuel s0 :
  (time_Second <? RetryWaitTime)%Z = true ->
  shouldRetry (attempt u s0) = false ->
  retry_rounds attempt (S fuel) time_Second (u :: rest) s0 = Some (attempt u s0).
Proof.
  intros Hc Hs. simpl. rewrite Hc, Hs. simpl. rewrite Hs.
  now destruct (err (attempt u s0)).
Qed.



(** ** Backoff *)

Lemma wait_at_succ (i : nat) : wait_at (S i) = (wait_at i + wait_at i / 2)%Z.
Proof. reflexivity. Qed.

Lemma wait_at_lower (i : nat) : (time_Second <= wait_at i)%Z.
Proof.
  induction i as [|i IH]; [unfold wait_at; simpl; lia|].
  rewrite wait_at_succ. unfold time_Second in *.
  assert (0 <= wait_at i / 2)%Z by (apply Z.div_pos; lia). lia.
Qed.

Section BackoffFacts.
Context `{Collaborators}.
Variable P : Type.
Variable attempt : string -> Session P -> Session P.

Hypothesis attempt_reads : forall u s, exists u' r,
  log (attempt u s) = log s ++ [EvRead u' r]
  /\ shouldRetry (attempt u s) = retryable r
  /\ err (attempt u s) = read_err r.

(** Every attempt fails with a retryable error. *)
Hypothesis attempt_fails : forall u s,
  shouldRetry (attempt u s) = true /\ err (attempt u s) <> None.

Lemma try_locations_fail urlStrings :
  urlStrings <> [] ->
  forall s,
    let s' := try_locations attempt urlStrings s in
    shouldRetry s' = true /\ err s' <> None
    /\ sleeps (log s') = sleeps (log s)
    /\ length (reads (log s')) = length (reads (log s)) + length urlStrings
    /\ exists r, last_read (log s') = Some r /\ read_err r = err s'.
Proof.
  induction urlStrings as [|u rest IH]; intros Hne s; [congruence|].
  simpl. destruct (attempt_fails u s) as [Hsr He].
  destruct (attempt_reads u s) as (u' & r & Hlog & _ & Her).
  rewrite Hsr. simpl.
  destruct (err (attempt u s)) as [e|] eqn:Hes; [|congruence].
  destruct rest as [|u2 rest].
  - simpl. rewrite Hes, Hsr, Hlog, sleeps_app, reads_app, length_app. simpl.
    rewrite app_nil_r, last_read_read.
    repeat split; try congruence; eauto.
  - destruct (IH ltac:(discriminate) (attempt u s)) as (A & B & C & D & E).
    cbv zeta in *. repeat split; try assumption.
    + rewrite C, Hlog, sleeps_app. simpl. now rewrite app_nil_r.
    + rewrite D, Hlog, reads_app, length_app. simpl. lia.
Qed.

Lemma retry_rounds_S fuel waitTime urls s :
  retry_rounds attempt (S fuel) waitTime urls s
  = if (waitTime <? RetryWaitTime)%Z then
      match err (try_locations attempt urls s) with
      | Some _ =>
          if shouldRetry (try_locations attempt urls s)
          then retry_rounds attempt fuel
                 (Int64.add waitTime (Z.quot waitTime 2)) urls
                 (sleep waitTime (try_locations attempt urls s))
          else Some (try_locations attempt urls s)
      | None => Some (try_locations attempt urls s)
      end
    else Some s.
Proof. reflexivity. Qed.

Variable urlStrings : list string.
Hypothesis some_location : urlStrings <> [].
Hypothesis ceiling : (RetryWaitTime <= 2 ^ 62)%Z.

(** From round [i] on, and with fuel for the rounds left: the loop ends
    at the first round [k] whose wait is not below the ceiling, having
    slept the waits of the rounds in between. *)
Lemma retry_rounds_backoff :
  forall n i s,
    (RetryWaitTime - wait_at i <= Z.of_nat n)%Z ->
    exists k r,
      retry_rounds attempt (S n) (wait_at i) urlStrings s = Some r
      /\ i <= k
      /\ (forall j, i <= j < k -> (wait_at j < RetryWaitTime)%Z)
      /\ (RetryWaitTime <= wait_at k)%Z
      /\ sleeps (log r) = sleeps (log s) ++ map wait_at (seq i (k - i))
      /\ length (reads (log r))
         = length (reads (log s)) + (k - i) * length urlStrings
      /\ (i < k -> err r <> None
                   /\ exists rr, last_read (log r) = Some rr /\ read_err rr = err r)
      /\ (i = k -> r = s).
Proof.
  induction n as [|n IH]; intros i s Hn.
  - exists i, s. simpl.
    destruct (Z.ltb_spec (wait_at i) RetryWaitTime) as [Hlt|Hge]; [lia|].
    rewrite Nat.sub_diag. simpl. rewrite app_nil_r.
    repeat split; try lia; auto.
  - rewrite retry_rounds_S.
    destruct (Z.ltb_spec (wait_at i) RetryWaitTime) as [Hlt|Hge].
    + destruct (try_locations_fail urlStrings some_location s)
        as (Hsr & He & Hsl & Hrd & rr & Hlast & Hrr).
      cbv zeta in *.
      destruct (err (try_locations attempt urlStrings s)) as [e|] eqn:Hes;
        [|congruence].
      rewrite Hsr.
      pose proof (wait_at_lower i) as Hlow. unfold time_Second in Hlow.
      assert (Hstep : Int64.add (wait_at i) (Z.quot (wait_at i) 2) = wait_at (S i)).
      { rewrite wait_at_succ, Z.quot_div_nonneg by lia.
        unfold Int64.add. apply wrap_in_range.
        unfold Int64.in_range, Int64.MinInt64, Int64.MaxInt64.
        assert (0 <= wait_at i / 2 <= wait_at i)%Z.
        { split; [apply Z.div_pos; lia | apply Z.div_le_upper_bound; lia]. }
        change (2 ^ 62)%Z with 4611686018427387904%Z in ceiling.
        change (2 ^ 63)%Z with 9223372036854775808%Z. lia. }
      rewrite Hstep.
      assert (Hgrow : (wait_at i + 1 <= wait_at (S i))%Z).
      { rewrite wait_at_succ.
        assert (1 <= wait_at i / 2)%Z by (apply Z.div_le_lower_bound; lia). lia. }
      destruct (IH (S i) (sleep (wait_at i) (try_locations attempt urlStrings s)))
        as (k & r & Hrun & Hik & Hbelow & Habove & Hsleeps & Hreads & Herr & _);
        [lia|].
      exists k, r. rewrite Hrun.
      split; [reflexivity|]. split; [lia|]. split.
      { intros j Hj. destruct (Nat.eq_dec j i) as [->|Hji]; [exact Hlt|].
        apply Hbelow. lia. }
      split; [exact Habove|]. split.
      { rewrite Hsleeps. unfold sleep. simpl. rewrite sleeps_app, Hsl. simpl.
        rewrite <- app_assoc. simpl.
        replace (k - i) with (S (k - S i)) by lia. reflexivity. }
      split.
      { rewrite Hreads. unfold sleep. simpl. rewrite reads_app, length_app, Hrd.
        simpl. replace (k - i) with (S (k - S i)) by lia. simpl. lia. }
      split; [|lia].
      intros _. destruct (Nat.eq_dec (S i) k) as [Heq|Hne].
      * destruct (IH (S i) (sleep (wait_at i) (try_locations attempt urlStrings s)))
          as (k' & r' & Hrun' & Hik' & Hbelow' & Habove' & _ & _ & _ & Hsame);
          [lia|].
        assert (k' = S i).
        { destruct (Nat.eq_dec k' (S i)) as [|Hd]; [assumption|].
          specialize (Hbelow' (S i)). subst k. lia. }
        rewrite Hrun in Hrun'. inversion Hrun'; subst r'.
        rewrite (Hsame (eq_sym H0)). unfold sleep. simpl.
        rewrite last_read_sleep, Hes. split; [discriminate|].
        exists rr. split; [exact Hlast | exact Hrr].
      * apply Herr. lia.
    + exists i, s. rewrite Nat.sub_diag. simpl. rewrite app_nil_r.
      repeat split; try lia; auto.
Qed.

(** The whole session, from the first round with an empty log. *)
Lemma retry_rounds_gives_up payload0 w :
  (time_Second < RetryWaitTime)%Z ->
  exists k, 0 < k
    /\ (forall j, j < k -> (wait_at j < RetryWaitTime)%Z)
    /\ (RetryWaitTime <= wait_at k)%Z
    /\ exists n s,
        (forall fuel, n <= fuel ->
           retry_rounds attempt fuel time_Second urlStrings
                        (mkSession w payload0 false None []) = Some s)
        /\ gave_up k urlStrings s.
Proof.
  intros Hc.
  destruct (retry_rounds_backoff (Z.to_nat RetryWaitTime) 0
              (mkSession w payload0 false None []))
    as (k & r & Hrun & _ & Hbelow & Habove & Hsleeps & Hreads & Herr & _).
  { pose proof (wait_at_lower 0). unfold time_Second in *. lia. }
  assert (Hk : 0 < k).
  { destruct k; [|lia]. change (wait_at 0) with time_Second in Habove. lia. }
  exists k. split; [exact Hk|]. split; [intros j Hj; apply Hbelow; lia|].
  split; [exact Habove|].
  exists (S (Z.to_nat RetryWaitTime)), r. split.
  - intros fuel Hf. eapply retry_rounds_mono; [exact Hrun | exact Hf].
  - simpl in Hsleeps, Hreads. rewrite Nat.sub_0_r in *.
    destruct (Herr Hk) as [He Hl].
    unfold gave_up. auto.
Qed.
End BackoffFacts.

Lemma range_attempt_fails `{Collaborators} cipherKey isGzipped isFullChunk offset :
  always_fails ->
  forall u s,
    shouldRetry (range_attempt cipherKey isGzipped isFullChunk offset u s) = true
    /\ err (range_attempt cipherKey isGzipped isFullChunk offset u s) <> None.
Proof.
  intros Hf u s. unfold range_attempt.
  match goal with
  | |- context [ReadUrlAsStream ?a ?b ?c ?d ?e ?f ?g] =>
      specialize (Hf a b c d e f g);
      destruct (ReadUrlAsStream a b c d e f g) as [w r]
  end.
  simpl in *. exact Hf.
Qed.

Lemma stream_attempt_fails `{Collaborators} cipherKey isGzipped isFullChunk offset size :
  always_fails ->
  forall u s,
    shouldRetry (stream_attempt cipherKey isGzipped isFullChunk offset size u s) = true
    /\ err (stream_attempt cipherKey isGzipped isFullChunk offset size u s) <> None.
Proof.
  intros Hf u s. unfold stream_attempt.
  destruct (payload s) as [sink totalWritten].
  match goal with
  | |- context [ReadUrlAsStream ?a ?b ?c ?d ?e ?f ?g] =>
      specialize (Hf a b c d e f g);
      destruct (ReadUrlAsStream a b c d e f g) as [w r]
  end.
  destruct (fold_left _ _ _) as [[sink' tw'] lp'].
  simpl in *. exact Hf.
Qed.

(** The round at which the loop gives up is determined by the ceiling. *)
Lemma give_up_round_unique (ceiling : Z) (k1 k2 : nat) :
  (forall j, j < k1 -> (wait_at j < ceiling)%Z) -> (ceiling <= wait_at k1)%Z ->
  (forall j, j < k2 -> (wait_at j < ceiling)%Z) -> (ceiling <= wait_at k2)%Z ->
  k1 = k2.
Proof.
  intros B1 A1 B2 A2.
  destruct (Nat.lt_trichotomy k1 k2) as [Hlt|[Heq|Hgt]]; [|exact Heq|].
  - specialize (B2 k1 Hlt). lia.
  - specialize (B1 k2 Hgt). lia.
Qed.

(** C7.  Against a transport that always reports a retryable failure,
    with at least one location and a ceiling above one second (and below
    the point where the [int64] wait would wrap), both fetches return:
    there is a round [k >= 1] such that the waits of rounds [0 .. k-1] are
    below the ceiling and the wait of round [k] has reached it; the
    session tries every location in each of the [k] rounds, sleeps the
    wait after each round, where the wait is one second at first and then
    [waitTime + waitTime / 2] (one and a half times the wait before, to
    the nanosecond), and returns the error of its last attempt. *)
Theorem backoff_gives_up `{Collaborators}
        (buffer writer : list byte) (urlStrings : list string)
        (cipherKey : list byte) (isGzipped isFullChunk : bool) (offset size : Z)
        (w : World) :
  (time_Second < RetryWaitTime <= 2 ^ 62)%Z ->
  urlStrings <> [] ->
  always_fails ->
  wait_at 0 = time_Second
  /\ (forall j, wait_at (S j) = wait_at j + wait_at j / 2)%Z
  /\ (forall j, 3 * wait_at j - 1 <= 2 * wait_at (S j) <= 3 * wait_at j)%Z
  /\ exists k,
      0 < k
      /\ (forall j, j < k -> (wait_at j < RetryWaitTime)%Z)
      /\ (RetryWaitTime <= wait_at k)%Z
      /\ (exists n s,
            gave_up k urlStrings s
            /\ forall fuel, n <= fuel ->
               range_session buffer urlStrings cipherKey isGzipped isFullChunk
                             offset fuel w = Some s
               /\ retriedFetchChunkData buffer urlStrings cipherKey isGzipped
                                        isFullChunk offset fuel w
                  = Some (world s, fst (payload s), (snd (payload s), err s)))
      /\ (exists n s,
            gave_up k urlStrings s
            /\ forall fuel, n <= fuel ->
               stream_session writer urlStrings cipherKey isGzipped isFullChunk
                              offset size fuel w = Some s
               /\ retriedStreamFetchChunkData writer urlStrings cipherKey isGzipped
                                              isFullChunk offset size fuel w
                  = Some (world s, fst (payload s), err s)).
Proof.
  intros [Hlow Hhigh] Hne Hfail.
  split; [reflexivity|]. split; [exact wait_at_succ|]. split.
  { intros j. rewrite wait_at_succ.
    pose proof (Z.div_mod (wait_at j) 2 ltac:(lia)) as Hdm.
    pose proof (Z.mod_pos_bound (wait_at j) 2 ltac:(lia)). lia. }
  destruct (retry_rounds_gives_up _ _
              (range_attempt_reads cipherKey isGzipped isFullChunk offset)
              (range_attempt_fails cipherKey isGzipped isFullChunk offset Hfail)
              urlStrings Hne Hhigh (buffer, 0%Z) w Hlow)
    as (k & Hk & Hbelow & Habove & n & s & Hrun & Hgave).
  destruct (retry_rounds_gives_up _ _
              (stream_attempt_reads cipherKey isGzipped isFullChunk offset size)
              (stream_attempt_fails cipherKey isGzipped isFullChunk offset size Hfail)
              urlStrings Hne Hhigh (writer, 0%Z) w Hlow)
    as (k' & Hk' & Hbelow' & Habove' & n' & s' & Hrun' & Hgave').
  assert (k' = k) by (eapply give_up_round_unique; eassumption). subst k'.
  exists k. repeat (split; [assumption|]). split.
  - exists n, s. split; [exact Hgave|]. intros fuel Hf.
    unfold retriedFetchChunkData, range_session. now rewrite (Hrun fuel Hf).
  - exists n', s'. split; [exact Hgave'|]. intros fuel Hf.
    unfold retriedStreamFetchChunkData, stream_session. now rewrite (Hrun' fuel Hf).
Qed.

(** Two locations that are down and the ceiling of six seconds. *)
Lemma backoff_gives_up_witness :
  wait_at 0 = time_Second
  /\ (forall j, wait_at (S j) = wait_at j + wait_at j / 2)%Z
  /\ (forall j, 3 * wait_at j - 1 <= 2 * wait_at (S j) <= 3 * wait_at j)%Z
  /\ exists k,
      0 < k
      /\ (forall j, j < k -> (wait_at j < 6 * time_Second)%Z)
      /\ (6 * time_Second <= wait_at k)%Z
      /\ (exists n s,
            @gave_up Down.collaborators _ k ["a"; "b"]%string s
            /\ forall fuel, n <= fuel ->
               @range_session Down.collaborators [] ["a"; "b"]%string [] false false
                              0 fuel 0 = Some s
               /\ @retriedFetchChunkData Down.collaborators [] ["a"; "b"]%string []
                                         false false 0 fuel 0
                  = Some (world s, fst (payload s), (snd (payload s), err s)))
      /\ (exists n s,
            @gave_up Down.collaborators _ k ["a"; "b"]%string s
            /\ forall fuel, n <= fuel ->
               @stream_session Down.collaborators [] ["a"; "b"]%string [] false true
                               0 0 fuel 0 = Some s
               /\ @retriedStreamFetchChunkData Down.collaborators []
                                               ["a"; "b"]%string [] false true 0 0
                                               fuel 0
                  = Some (world s, fst (payload s), err s)).
Proof.
  apply (@backoff_gives_up Down.collaborators [] [] ["a"; "b"]%string [] false false
           0 0 0).
  - split; [reflexivity | discriminate].
  - discriminate.
  - intros url cipherKey isGzipped isFullChunk offset size w. simpl.
    split; [reflexivity | discriminate].
Defined.

(** ** Invariants of a session *)

Lemma try_locations_invariant `{Collaborators} (P : Type)
      (attempt : string -> Session P -> Session P) (I : Session P -> Prop) :
  (forall u s, I s -> I (attempt u s)) ->
  forall urlStrings s, I s -> I (try_locations attempt urlStrings s).
Proof.
  intros Hatt. induction urlStrings as [|u rest IH]; intros s Hs; simpl; [exact Hs|].
  destruct (negb (shouldRetry (attempt u s))); [now apply Hatt|].
  destruct (err (attempt u s)); [apply IH|]; now apply Hatt.
Qed.

Lemma retry_rounds_invariant `{Collaborators} (P : Type)
      (attempt : string -> Session P -> Session P) (I : Session P -> Prop) :
  (forall u s, I s -> I (attempt u s)) ->
  (forall d s, I s -> I (sleep d s)) ->
  forall fuel waitTime urlStrings s r,
    I s -> retry_rounds attempt fuel waitTime urlStrings s = Some r -> I r.
Proof.
  intros Hatt Hsl. induction fuel as [|fuel IH]; intros waitTime urlStrings s r Hs Hr.
  - discriminate.
  - simpl in Hr.
    pose proof (try_locations_invariant P attempt I Hatt urlStrings s Hs) as Ht.
    destruct (waitTime <? RetryWaitTime)%Z; [|now inversion Hr; subst].
    destruct (err (try_locations attempt urlStrings s));
      [|now inversion Hr; subst].
    destruct (shouldRetry (try_locations attempt urlStrings s));
      [|now inversion Hr; subst].
    eapply IH; [|exact Hr]. now apply Hsl.
Qed.

(** ** Stream mode: each byte once *)

(** One delivery: the bytes a previous attempt has written are dropped
    from its front, the rest is appended and counted. *)
Lemma stream_on_data_skips (sink : list byte) (totalWritten localProcesed : Z)
      (data : list byte) :
  stream_on_data (sink, totalWritten, localProcesed) data
  = (sink ++ skipn (Z.to_nat (totalWritten - localProcesed)) data,
     (totalWritten
      + Z.of_nat (length (skipn (Z.to_nat (totalWritten - localProcesed)) data)))%Z,
     (localProcesed + Z.of_nat (length data))%Z).
Proof.
  unfold stream_on_data.
  destruct (Z.gtb_spec totalWritten localProcesed) as [Hgt|Hle].
  - destruct (Z.leb_spec (Z.of_nat (length data)) (totalWritten - localProcesed))
      as [Hall|Hpart].
    + rewrite skipn_all2 by lia. simpl. rewrite app_nil_r. f_equal. f_equal. lia.
    + f_equal. rewrite length_skipn. lia.
  - replace (Z.to_nat (totalWritten - localProcesed)) with 0 by lia.
    reflexivity.
Qed.

(** The deliveries of one attempt act as one delivery of their
    concatenation. *)
Lemma stream_deliveries (ds : list (list byte)) :
  forall sink totalWritten localProcesed,
    (localProcesed <= totalWritten)%Z ->
    fold_left stream_on_data ds (sink, totalWritten, localProcesed)
    = (sink ++ skipn (Z.to_nat (totalWritten - localProcesed)) (concat ds),
       (totalWritten
        + Z.of_nat (length (skipn (Z.to_nat (totalWritten - localProcesed))
                                  (concat ds))))%Z,
       (localProcesed + Z.of_nat (length (concat ds)))%Z).
Proof.
  induction ds as [|d ds IH]; intros sink tw lp Hle; cbn [fold_left concat].
  - rewrite skipn_nil, app_nil_r. simpl. f_equal. f_equal; lia. lia.
  - rewrite stream_on_data_skips.
    set (k := Z.to_nat (tw - lp)).
    assert (Hlen : length (skipn k d) = length d - k) by apply length_skipn.
    rewrite IH by lia.
    replace (Z.to_nat (tw + Z.of_nat (length (skipn k d))
                       - (lp + Z.of_nat (length d))))
      with (k - length d) by lia.
    rewrite skipn_app, length_app, <- app_assoc, !length_app.
    f_equal; [f_equal|]; lia.
Qed.

Lemma longest_delivery_read (l : list Event) (u : string) (r : ReadResult) :
  longest_delivery (l ++ [EvRead u r])
  = Nat.max (longest_delivery l) (length (concat (deliveries r))).
Proof.
  unfold longest_delivery. rewrite reads_app. simpl.
  induction (reads l) as [|r0 rs IH]; simpl; [lia|]. rewrite IH. lia.
Qed.

Lemma longest_delivery_sleep (l : list Event) (d : Z) :
  longest_delivery (l ++ [EvSleep d]) = longest_delivery l.
Proof. unfold longest_delivery. rewrite reads_app. simpl. now rewrite app_nil_r. Qed.

(** A longer prefix of the content extends a shorter one by what the
    shorter one lacks. *)
Lemma prefix_extend (content : list byte) (m d : nat) :
  firstn m content ++ skipn m (firstn d content) = firstn (Nat.max m d) content.
Proof.
  destruct (Nat.le_gt_cases d m) as [Hle|Hgt].
  - rewrite skipn_all2 by (rewrite length_firstn; lia).
    rewrite app_nil_r. f_equal. lia.
  - replace (Nat.max m d) with d by lia.
    rewrite <- (firstn_skipn m (firstn d content)) at 2.
    rewrite firstn_firstn. f_equal. f_equal. lia.
Qed.

Lemma stream_attempt_written_once `{Collaborators} (content writer : list byte)
      cipherKey isGzipped isFullChunk offset size :
  delivers_prefixes content ->
  forall u s,
    written_once content writer s ->
    written_once content writer
                 (stream_attempt cipherKey isGzipped isFullChunk offset size u s).
Proof.
  intros Hpre u s (m & Hp & Hm & Hlong). unfold stream_attempt. rewrite Hp.
  match goal with
  | |- context [ReadUrlAsStream ?a ?b ?c ?d ?e ?f ?g] =>
      specialize (Hpre a b c d e f g);
      destruct (ReadUrlAsStream a b c d e f g) as [w r]
  end.
  simpl in Hpre. destruct Hpre as [d Hd].
  rewrite stream_deliveries by lia. rewrite Z.sub_0_r, Nat2Z.id.
  exists (Nat.max m (Nat.min d (length content))). simpl.
  rewrite longest_delivery_read, Hd, length_firstn.
  split; [|split; [lia|lia]].
  assert (Hfd : firstn d content = firstn (Nat.min d (length content)) content).
  { destruct (Nat.le_gt_cases d (length content)) as [Hle|Hgt].
    - f_equal. lia.
    - rewrite !firstn_all2 by lia. reflexivity. }
  rewrite Hfd, <- app_assoc, prefix_extend. f_equal.
  rewrite length_skipn, length_firstn. lia.
Qed.

(** C2.  In a stream session over a transport that re-delivers the
    chunk's content from byte zero on every attempt, each delivery drops
    its first [totalWritten - localProcesed] bytes and appends and counts
    the rest, and at the end the sink holds, after what the writer held
    before, the first [m] bytes of the content once each, [m] being both
    [totalWritten] and the length of the longest delivery; it holds the
    whole content as soon as one attempt delivered all of it. *)
Theorem stream_writes_each_byte_once `{Collaborators}
        (content writer : list byte) (urlStrings : list string)
        (cipherKey : list byte) (isGzipped isFullChunk : bool) (offset size : Z)
        (fuel : nat) (w : World) (s : Session (list byte * Z)) :
  delivers_prefixes content ->
  stream_session writer urlStrings cipherKey isGzipped isFullChunk offset size
                 fuel w = Some s ->
  (forall sink totalWritten localProcesed data,
      stream_on_data (sink, totalWritten, localProcesed) data
      = (sink ++ skipn (Z.to_nat (totalWritten - localProcesed)) data,
         (totalWritten
          + Z.of_nat (length (skipn (Z.to_nat (totalWritten - localProcesed))
                                    data)))%Z,
         (localProcesed + Z.of_nat (length data))%Z))
  /\ written_once content writer s
  /\ (length content <= longest_delivery (log s) ->
      fst (payload s) = writer ++ content)
  /\ retriedStreamFetchChunkData writer urlStrings cipherKey isGzipped isFullChunk
                                 offset size fuel w
     = Some (world s, fst (payload s), err s).
Proof.
  intros Hpre Hs.
  assert (Hw : written_once content writer s).
  { unfold stream_session in Hs.
    eapply (retry_rounds_invariant _ _ (written_once content writer));
      [| | |exact Hs].
    - intros u s0. now apply stream_attempt_written_once.
    - intros d s0 (m & Hp & Hm & Hl). exists m. unfold sleep. simpl.
      rewrite longest_delivery_sleep. auto.
    - exists 0. simpl. rewrite app_nil_r. split; [reflexivity | split; lia]. }
  split; [exact stream_on_data_skips|]. split; [exact Hw|]. split.
  - intros Hall. destruct Hw as (m & Hp & Hm & Hl). rewrite Hp. simpl.
    rewrite firstn_all2 by lia. reflexivity.
  - unfold retriedStreamFetchChunkData. now rewrite Hs.
Qed.

(** The first attempt delivers the bytes [[0,60)] and fails, the second
    delivers [[0,100)]: the sink holds [[0,100)]. *)
Lemma stream_writes_each_byte_once_witness :
  exists s,
    @stream_session Flaky.collaborators [] ["a"%string] [] false true 0 0 2 0 = Some s
    /\ map (fun r => concat (deliveries r)) (reads (log s))
       = [byte_range 0 60; byte_range 0 100]
    /\ payload s = (byte_range 0 100, 100%Z)
    /\ err s = None.
Proof.
  eexists. split; [reflexivity|]. split; [reflexivity|].
  match goal with
  | |- payload ?s = _ /\ _ =>
      destruct (@stream_writes_each_byte_once Flaky.collaborators
                  (byte_range 0 100) [] ["a"%string] [] false true 0 0 2 0 s)
        as (_ & (m & Hp & _ & Hm) & _ & _)
  end.
  - intros url cipherKey isGzipped isFullChunk offset size [|w]; simpl.
    + exists 60. reflexivity.
    + exists 100. reflexivity.
  - reflexivity.
  - rewrite Hp, Hm. split; reflexivity.
Defined.

(** ** Range mode: the count and the buffer *)

Lemma range_on_data_filled (buffer0 delivered data : list byte) (bn : list byte * Z) :
  filled buffer0 delivered bn ->
  filled buffer0 (delivered ++ data) (range_on_data bn data).
Proof.
  destruct bn as [b n]. unfold filled. simpl.
  set (L := length buffer0). set (k := Nat.min L (length delivered)).
  intros (Hlen & Hn & Hfirst & Hskip). subst n. rewrite length_app, Hlen.
  destruct (Z.ltb_spec (Z.of_nat k) (Z.of_nat L)) as [Hlt|Hge].
  - (* room left: everything delivered so far is in the buffer *)
    assert (Hk : k = length delivered) by lia.
    set (x := Nat.min (L - k) (length data)).
    replace (Z.min (Z.of_nat L - Z.of_nat k) (Z.of_nat (length data)))
      with (Z.of_nat x) by lia.
    replace (Z.to_nat (Z.of_nat k + Z.of_nat x)) with (k + x) by lia.
    rewrite !Nat2Z.id. simpl.
    replace (Nat.min L (length delivered + length data)) with (k + x) by lia.
    assert (Hfk : length (firstn k b) = k) by (rewrite length_firstn; lia).
    assert (Hfx : length (firstn x data) = x) by (rewrite length_firstn; lia).
    split; [|split; [lia|split]].
    + rewrite !length_app, Hfk, Hfx, length_skipn. lia.
    + rewrite firstn_app, Hfk, (@firstn_all2 _ (k + x) (firstn k b)) by lia.
      replace (k + x - k) with x by lia.
      rewrite firstn_app, Hfx, Nat.sub_diag, firstn_0, app_nil_r.
      rewrite (@firstn_all2 _ x (firstn x data)) by lia.
      rewrite (firstn_app (k + x) delivered), (@firstn_all2 _ (k + x) delivered) by lia.
      replace (k + x - length delivered) with x by lia.
      f_equal. rewrite Hfirst. apply firstn_all2. lia.
    + rewrite skipn_app, Hfk, (@skipn_all2 _ (k + x) (firstn k b)) by lia.
      replace (k + x - k) with x by lia.
      rewrite skipn_app, Hfx, Nat.sub_diag, skipn_0,
        (@skipn_all2 _ x (firstn x data)) by lia.
      simpl. rewrite (Nat.add_comm k x), <- !skipn_skipn. now rewrite Hskip.
  - (* the buffer is full *)
    assert (Hk : k = L) by lia. simpl.
    replace (Nat.min L (length delivered + length data)) with k by lia.
    split; [exact Hlen|split; [reflexivity|split; [|exact Hskip]]].
    rewrite Hfirst, firstn_app.
    replace (k - length delivered) with 0 by lia.
    now rewrite firstn_0, app_nil_r.
Qed.

Lemma range_deliveries_filled (buffer0 : list byte) (ds : list (list byte)) :
  forall delivered bn,
    filled buffer0 delivered bn ->
    filled buffer0 (delivered ++ concat ds) (fold_left range_on_data ds bn).
Proof.
  induction ds as [|d ds IH]; intros delivered bn Hf; cbn [fold_left concat].
  - now rewrite app_nil_r.
  - rewrite app_assoc. apply IH. now apply range_on_data_filled.
Qed.

(** One attempt: the count restarts from zero on the buffer as the
    attempt found it. *)
Lemma range_attempt_filled `{Collaborators} cipherKey isGzipped isFullChunk offset
      (u : string) (s : Session (list byte * Z)) :
  exists u' r,
    log (range_attempt cipherKey isGzipped isFullChunk offset u s)
    = log s ++ [EvRead u' r]
    /\ filled (fst (payload s)) (concat (deliveries r))
              (payload (range_attempt cipherKey isGzipped isFullChunk offset u s)).
Proof.
  unfold range_attempt.
  destruct (ReadUrlAsStream _ _ _ _ _ _ _) as [w r].
  eexists. exists r. simpl. split; [reflexivity|].
  apply (range_deliveries_filled (fst (payload s)) (deliveries r) []).
  unfold filled. simpl. rewrite Nat.min_0_r. simpl. auto.
Qed.

Lemma range_attempt_reflects `{Collaborators} (buffer : list byte)
      cipherKey isGzipped isFullChunk offset :
  forall u s,
    reflects_last_read buffer s ->
    reflects_last_read buffer
      (range_attempt cipherKey isGzipped isFullChunk offset u s).
Proof.
  intros u s (Hlen & _ & _).
  destruct (range_attempt_filled cipherKey isGzipped isFullChunk offset u s)
    as (u' & r & Hlog & Hf).
  unfold reflects_last_read. rewrite Hlog, last_read_read.
  destruct Hf as (Hl & Hn & Hfirst & _). rewrite Hlen in *.
  repeat split; try assumption; lia.
Qed.

Lemma range_session_reflects `{Collaborators} (buffer : list byte) urlStrings
      cipherKey isGzipped isFullChunk offset fuel w s :
  range_session buffer urlStrings cipherKey isGzipped isFullChunk offset fuel w
  = Some s ->
  reflects_last_read buffer s.
Proof.
  unfold range_session. intros Hs.
  eapply (retry_rounds_invariant _ _ (reflects_last_read buffer)); [| | |exact Hs].
  - intros u s0. apply range_attempt_reflects.
  - intros d s0 (Hlen & Hn & Hlast). unfold reflects_last_read, sleep. simpl.
    rewrite last_read_sleep. auto.
  - unfold reflects_last_read. simpl. repeat split; lia.
Qed.

(** C10, as amended.  A range fetch returns a count [n] with
    [0 <= n <= len(buffer)] and a buffer of the caller's length: no
    delivery is written past the end.  Every attempt restarts the count
    at zero, fills the buffer from its front with what it is delivered
    until the buffer is full, and leaves the buffer from its own count on
    as it found it.  On return [n] and [buffer[0:n]] are those of the
    last attempt: [n] is the number of bytes that attempt delivered,
    capped at the buffer's length, and [buffer[0:n]] are its first [n]
    bytes.  (The positions from [n] on are not claimed to be the
    caller's.) *)
Theorem range_fetch_reflects_last_attempt `{Collaborators}
        (buffer : list byte) (urlStrings : list string)
        (cipherKey : list byte) (isGzipped isFullChunk : bool) (offset : Z)
        (fuel : nat) (w : World) (s : Session (list byte * Z)) :
  range_session buffer urlStrings cipherKey isGzipped isFullChunk offset fuel w
  = Some s ->
  reflects_last_read buffer s
  /\ retriedFetchChunkData buffer urlStrings cipherKey isGzipped isFullChunk offset
                           fuel w
     = Some (world s, fst (payload s), (snd (payload s), err s))
  /\ (forall u s0, exists u' r,
        log (range_attempt cipherKey isGzipped isFullChunk offset u s0)
        = log s0 ++ [EvRead u' r]
        /\ filled (fst (payload s0)) (concat (deliveries r))
                  (payload (range_attempt cipherKey isGzipped isFullChunk offset
                                          u s0)))
  /\ (forall lookupFileIdFn fileId w' buffer' n e,
        fetchChunkRange buffer lookupFileIdFn fileId cipherKey isGzipped offset
                        fuel w = Some (w', buffer', (n, e)) ->
        (0 <= n <= Z.of_nat (length buffer))%Z /\ length buffer' = length buffer).
Proof.
  intros Hs. split; [now apply range_session_reflects in Hs|]. split.
  { unfold retriedFetchChunkData. now rewrite Hs. }
  split; [intros u s0; apply range_attempt_filled|].
  intros lookupFileIdFn fileId w' buffer' n e. unfold fetchChunkRange.
  destruct (lookupFileIdFn fileId w) as [w1 [urls [e1|]]].
  - intros [= <- <- <- <-]. split; [lia | reflexivity].
  - unfold retriedFetchChunkData.
    destruct (range_session buffer urls cipherKey isGzipped false offset fuel w1)
      as [s1|] eqn:Hs1; [|discriminate].
    apply range_session_reflects in Hs1. destruct Hs1 as (Hlen & Hn & _).
    intros [= <- <- <- <-]. auto.
Qed.

(** A buffer of four zero bytes; the first attempt delivers [1;2;3] and
    fails, the second delivers [9] and succeeds. *)
Lemma range_fetch_reflects_last_attempt_witness :
  exists s,
    @range_session Shrinking.collaborators (repeat Byte.x00 4) ["a"%string] []
                   false false 0 2 0 = Some s
    /\ reflects_last_read (repeat Byte.x00 4) s
    /\ last_read (log s) = Some (Shrinking.read 1)
    /\ snd (payload s) = 1%Z
    /\ firstn 1 (fst (payload s)) = [Byte.x09].
Proof.
  eexists. split; [reflexivity|].
  match goal with
  | |- reflects_last_read _ ?s /\ _ =>
      destruct (@range_fetch_reflects_last_attempt Shrinking.collaborators
                  (repeat Byte.x00 4) ["a"%string] [] false false 0 2 0 s eq_refl)
        as (Hr & _)
  end.
  split; [exact Hr|]. split; [reflexivity|].
  destruct Hr as (_ & _ & Hlast).
  change (last_read _) with (Some (Shrinking.read 1)) in Hlast.
  exact Hlast.
Defined.

(** C10, as stated, fails: after the same session the count is 1, yet the
    positions 1 and 2 of the buffer hold the bytes [2] and [3] that the
    failed first attempt wrote there, not what the caller passed in and
    not anything the last attempt delivered. *)
Lemma range_fetch_keeps_stale_bytes :
  exists s,
    @range_session Shrinking.collaborators (repeat Byte.x00 4) ["a"%string] []
                   false false 0 2 0 = Some s
    /\ map (fun r => concat (deliveries r)) (reads (log s))
       = [[Byte.x01; Byte.x02; Byte.x03]; [Byte.x09]]
    /\ payload s = ([Byte.x09; Byte.x02; Byte.x03; Byte.x00], 1%Z)
    /\ err s = None
    /\ skipn 1 (fst (payload s)) <> skipn 1 (repeat Byte.x00 4).
Proof.
  eexists. repeat split. discriminate.
Qed.

(** ** Manifest builder *)

Lemma separate_from_filter (chunks manifestChunks nonManifestChunks : list FileChunk) :
  separate_from chunks manifestChunks nonManifestChunks
  = (manifestChunks ++ filter IsChunkManifest chunks,
     nonManifestChunks ++ filter (fun c => negb (IsChunkManifest c)) chunks).
Proof.
  revert manifestChunks nonManifestChunks.
  induction chunks as [|c chunks IH]; intros ms ds; simpl.
  - now rewrite !app_nil_r.
  - destruct (IsChunkManifest c); simpl; rewrite IH, <- app_assoc; reflexivity.
Qed.

Lemma mergeIntoManifest_batch `{Collaborators} saveFunc dataChunks w :
  snd (fst (mergeIntoManifest saveFunc dataChunks w))
  = map BeforeEntrySerialization dataChunks.
Proof.
  unfold mergeIntoManifest.
  destruct (Marshal _) as [data [e|]]; [reflexivity|].
  destruct (fold_left _ _ _) as [mn mx].
  destruct (saveFunc _ _ _ _) as [w1 [e|c]]; reflexivity.
Qed.

Lemma skipn_pre {A : Type} (pre rest : list A) :
  skipn (length pre) (pre ++ rest) = rest.
Proof. induction pre as [|a pre IH]; simpl; auto. Qed.

Lemma firstn_pre {A : Type} (pre rest : list A) :
  firstn (length pre) (pre ++ rest) = pre.
Proof. induction pre as [|a pre IH]; simpl; [reflexivity | now rewrite IH]. Qed.

Lemma skipn_pre_plus {A : Type} (pre rest : list A) (m : nat) :
  skipn (length pre + m) (pre ++ rest) = skipn m rest.
Proof. induction pre as [|a pre IH]; simpl; auto. Qed.

Lemma firstn_plus {A : Type} (a b : nat) (l : list A) :
  firstn (a + b) l = firstn a l ++ firstn b (skipn a l).
Proof.
  revert l. induction a as [|a IH]; intros [|x l]; simpl;
    rewrite ?firstn_nil; try reflexivity.
  now rewrite IH.
Qed.

Section BuilderFacts.
Context `{Collaborators}.
Variable saveFunc : SaveDataAsChunkFunctionType.
Variable mergeFactor : nat.
Hypothesis mergeFactor_positive : 0 < mergeFactor.

Local Abbreviation loop_outcome := (loop_outcome saveFunc mergeFactor).

Lemma merge_batches_outcome :
  forall n fuel pre rest chunks w,
    n < fuel ->
    n * mergeFactor <= length rest < S n * mergeFactor ->
    merge_batches saveFunc mergeFactor mergeIntoManifest fuel
                  (length pre) (pre ++ rest) chunks (length rest) w
    = Some (loop_outcome pre rest chunks n w).
Proof.
  induction n as [|n IH]; intros fuel pre rest chunks w Hfuel Hlen;
    (destruct fuel as [|fuel]; [lia|]); cbn [merge_batches];
    rewrite length_app.
  - destruct (Nat.leb_spec (length pre + mergeFactor) (length pre + length rest));
      [lia|].
    unfold loop_outcome. simpl.
    replace (length pre + length rest - length rest) with (length pre) by lia.
    now rewrite skipn_pre.
  - destruct (Nat.leb_spec (length pre + mergeFactor) (length pre + length rest));
      [|lia].
    rewrite skipn_pre, firstn_pre, skipn_pre_plus.
    unfold loop_outcome. cbn [batches_of merge_each].
    pose proof (mergeIntoManifest_batch saveFunc (firstn mergeFactor rest) w) as Hb.
    destruct (mergeIntoManifest saveFunc (firstn mergeFactor rest) w)
      as [[w1 batch] [e|manifestChunk]]; simpl in Hb; subst batch.
    + rewrite Nat.mul_1_l. reflexivity.
    + assert (Hpre : length (pre ++ map BeforeEntrySerialization
                                         (firstn mergeFactor rest))
                     = length pre + mergeFactor).
      { rewrite length_app, length_map, length_firstn. lia. }
      assert (Hrest : length (skipn mergeFactor rest) = length rest - mergeFactor)
        by apply length_skipn.
      specialize (IH fuel
                     (pre ++ map BeforeEntrySerialization (firstn mergeFactor rest))
                     (skipn mergeFactor rest) (chunks ++ [manifestChunk]) w1).
      rewrite Hpre, Hrest, <- app_assoc in IH.
      rewrite IH by (simpl in Hlen; lia).
      unfold loop_outcome.
      destruct (merge_each saveFunc
                  (batches_of n mergeFactor (skipn mergeFactor rest)) w1)
        as [[[w2 ms] handed] [e|]].
      * f_equal. f_equal. f_equal.
        rewrite <- !app_assoc. f_equal.
        rewrite skipn_skipn.
        replace (S handed * mergeFactor) with (mergeFactor + handed * mergeFactor)
          by lia.
        rewrite firstn_plus, map_app, <- app_assoc.
        f_equal. f_equal. f_equal. lia.
      * f_equal. f_equal. f_equal.
        rewrite <- !app_assoc. simpl. f_equal. f_equal. f_equal.
        rewrite skipn_skipn. f_equal. lia.
Qed.
End BuilderFacts.

Lemma ManifestBatch_positive : 0 < ManifestBatch.
Proof. apply Nat.ltb_lt. vm_compute. reflexivity. Qed.

Lemma batches_of_length (n size : nat) (l : list FileChunk) :
  length (batches_of n size l) = n.
Proof. revert l. induction n as [|n IH]; intros l; simpl; auto. Qed.

Lemma batches_of_full (n size : nat) (l : list FileChunk) :
  n * size <= length l ->
  Forall (fun b => length b = size) (batches_of n size l)
  /\ concat (batches_of n size l) ++ skipn (n * size) l = l.
Proof.
  revert l. induction n as [|n IH]; intros l Hl; simpl.
  - split; [constructor | reflexivity].
  - destruct (IH (skipn size l)) as [Hall Hcat].
    { rewrite length_skipn. simpl in Hl. lia. }
    split.
    + constructor; [rewrite length_firstn; simpl in Hl; lia | exact Hall].
    + rewrite <- app_assoc, (Nat.add_comm size), <- skipn_skipn, Hcat.
      apply firstn_skipn.
Qed.

Lemma mergeIntoManifest_stamps `{Collaborators} saveFunc dataChunks w w' batch m :
  mergeIntoManifest saveFunc dataChunks w = (w', batch, inr m) ->
  IsChunkManifest m = true.
Proof.
  unfold mergeIntoManifest.
  destruct (Marshal _) as [data [e|]]; [discriminate|].
  destruct (fold_left _ _ _) as [mn mx].
  destruct (saveFunc _ _ _ _) as [w1 [e|c]]; [discriminate|].
  intros [= <- <- <-]. reflexivity.
Qed.

Lemma merge_each_success `{Collaborators} saveFunc batches :
  forall w w' manifestChunks handed,
    merge_each saveFunc batches w = (w', manifestChunks, handed, None) ->
    length manifestChunks = length batches
    /\ Forall (fun m => IsChunkManifest m = true) manifestChunks.
Proof.
  induction batches as [|b rest IH]; intros w w' ms handed; simpl.
  - intros [= <- <- <-]. split; [reflexivity | constructor].
  - destruct (mergeIntoManifest saveFunc b w) as [[w1 batch] [e|m]] eqn:Hm;
      [discriminate|].
    destruct (merge_each saveFunc rest w1) as [[[w2 ms'] h] e] eqn:Hrest.
    intros [= <- <- <- ->].
    destruct (IH _ _ _ _ Hrest) as [Hlen Hall].
    split; [simpl; now rewrite Hlen|].
    constructor; [eapply mergeIntoManifest_stamps; exact Hm | exact Hall].
Qed.

Lemma merge_each_handed `{Collaborators} saveFunc batches :
  forall w w' manifestChunks handed e,
    merge_each saveFunc batches w = (w', manifestChunks, handed, Some e) ->
    0 < handed <= length batches.
Proof.
  induction batches as [|b rest IH]; intros w w' ms handed e; simpl.
  - discriminate.
  - destruct (mergeIntoManifest saveFunc b w) as [[w1 batch] [e1|m]].
    + intros [= <- <- <- <-]. lia.
    + destruct (merge_each saveFunc rest w1) as [[[w2 ms'] h] e2] eqn:Hrest.
      intros [= <- <- <- ->]. specialize (IH _ _ _ _ _ Hrest). lia.
Qed.

Lemma MaybeManifestize_outcome `{Collaborators} saveFunc inputChunks fuel w :
  let leaves := filter (fun c => negb (IsChunkManifest c)) inputChunks in
  length leaves / ManifestBatch < fuel ->
  MaybeManifestize saveFunc inputChunks fuel w
  = Some (loop_outcome saveFunc ManifestBatch [] leaves
                       (filter IsChunkManifest inputChunks)
                       (length leaves / ManifestBatch) w).
Proof.
  intros leaves Hfuel. unfold MaybeManifestize, doMaybeManifestize.
  rewrite separate_from_filter. cbn [app]. fold leaves.
  pose proof ManifestBatch_positive as Hpos.
  apply (merge_batches_outcome saveFunc ManifestBatch Hpos
           (length leaves / ManifestBatch) fuel [] leaves); [exact Hfuel|].
  split.
  - rewrite Nat.mul_comm. apply Nat.Div0.mul_div_le.
  - rewrite Nat.mul_comm. apply Nat.mul_succ_div_gt. lia.
Qed.

(** C5.  [MaybeManifestize] returns whenever the fuel exceeds the number
    of full batches, and without error when no merge of a full batch
    fails.  When it returns without error, its output is the
    manifest chunks of the input in input order, then one manifest chunk
    per full batch of [ManifestBatch = 10000] leaf chunks, made by merging
    the consecutive batches of the leaves in input order, then the leaves
    left over, fewer than [10000]; 25000 leaves give two full batches and
    5000 leftover leaves. *)
Theorem MaybeManifestize_batches `{Collaborators}
        (saveFunc : SaveDataAsChunkFunctionType) (inputChunks : list FileChunk)
        (fuel : nat) (w : World) :
  let manifests := filter IsChunkManifest inputChunks in
  let leaves := filter (fun c => negb (IsChunkManifest c)) inputChunks in
  let k := length leaves / ManifestBatch in
  k < fuel ->
  SeparateManifestChunks inputChunks = (manifests, leaves)
  /\ Forall (fun b => length b = ManifestBatch) (full_batches ManifestBatch leaves)
  /\ concat (full_batches ManifestBatch leaves) ++ skipn (k * ManifestBatch) leaves
     = leaves
  /\ length (skipn (k * ManifestBatch) leaves) < ManifestBatch
  /\ (exists r, MaybeManifestize saveFunc inputChunks fuel w = Some r)
  /\ (snd (merge_each saveFunc (full_batches ManifestBatch leaves) w) = None ->
      exists w' out,
        MaybeManifestize saveFunc inputChunks fuel w = Some (w', (out, None)))
  /\ (forall w' out,
        MaybeManifestize saveFunc inputChunks fuel w = Some (w', (out, None)) ->
        exists merged handed,
          merge_each saveFunc (full_batches ManifestBatch leaves) w
          = (w', merged, handed, None)
          /\ out = manifests ++ merged ++ skipn (k * ManifestBatch) leaves
          /\ length merged = k
          /\ Forall (fun m => IsChunkManifest m = true) merged)
  /\ (length leaves = 25000 ->
      k = 2 /\ length (skipn (k * ManifestBatch) leaves) = 5000).
Proof.
  intros manifests leaves k Hfuel.
  pose proof ManifestBatch_positive as Hpos.
  assert (Hk : k * ManifestBatch <= length leaves).
  { unfold k. rewrite Nat.mul_comm. apply Nat.Div0.mul_div_le. }
  assert (Hk' : length leaves < S k * ManifestBatch).
  { unfold k. rewrite Nat.mul_comm. apply Nat.mul_succ_div_gt. lia. }
  destruct (batches_of_full k ManifestBatch leaves Hk) as [Hall Hcat].
  pose proof (MaybeManifestize_outcome saveFunc inputChunks fuel w Hfuel) as Hout.
  fold leaves manifests k in Hout.
  split.
  { unfold SeparateManifestChunks. now rewrite separate_from_filter. }
  split; [exact Hall|]. split; [exact Hcat|]. split.
  { rewrite length_skipn. lia. }
  split; [eexists; exact Hout|]. split.
  { intros Hnone. rewrite Hout. unfold loop_outcome.
    change (full_batches ManifestBatch leaves)
      with (batches_of k ManifestBatch leaves) in Hnone.
    destruct (merge_each saveFunc (batches_of k ManifestBatch leaves) w)
      as [[[w2 merged] handed] e].
    simpl in Hnone. subst e. eauto. }
  split.
  - intros w' out Hrun. rewrite Hout in Hrun. unfold loop_outcome in Hrun.
    change (full_batches ManifestBatch leaves) with (batches_of k ManifestBatch leaves).
    destruct (merge_each saveFunc (batches_of k ManifestBatch leaves) w)
      as [[[w2 merged] handed] [e|]] eqn:Hm; [discriminate|].
    inversion Hrun; subst. exists merged, handed.
    destruct (merge_each_success _ _ _ _ _ _ Hm) as [Hlen Hman].
    split; [reflexivity|]. split; [reflexivity|]. split; [|exact Hman].
    rewrite Hlen. apply batches_of_length.
  - intros H25. assert (k = 2) as ->.
    { unfold k. rewrite H25. vm_compute. reflexivity. }
    split; [reflexivity|]. rewrite length_skipn, H25. vm_compute. reflexivity.
Qed.


(** A store and a serializer that never fail make every merge succeed. *)
Lemma merge_each_succeeds `{Collaborators} (saveFunc : SaveDataAsChunkFunctionType) :
  (forall chunks, snd (Marshal chunks) = None) ->
  (forall data name offset w, exists c, snd (saveFunc data name offset w) = inr c) ->
  forall batches w, snd (merge_each saveFunc batches w) = None.
Proof.
  intros Hmarshal Hsave. induction batches as [|b rest IH]; intros w; simpl.
  - reflexivity.
  - unfold mergeIntoManifest.
    specialize (Hmarshal (map BeforeEntrySerialization b)).
    destruct (Marshal (map BeforeEntrySerialization b)) as [data e].
    simpl in Hmarshal. subst e.
    destruct (fold_left _ _ _) as [mn mx].
    destruct (Hsave data ""%string 0%Z w) as [c Hc].
    destruct (saveFunc data ""%string 0%Z w) as [w1 saved]. simpl in Hc. subst saved.
    specialize (IH w1).
    destruct (merge_each saveFunc rest w1) as [[[w2 ms] h] e]. exact IH.
Qed.

(** The example leaves are leaves. *)
Lemma Store_leaves_leaves (n : nat) :
  filter (fun c => negb (IsChunkManifest c)) (Store.leaves n) = Store.leaves n
  /\ filter IsChunkManifest (Store.leaves n) = []
  /\ length (Store.leaves n) = n.
Proof.
  unfold Store.leaves. generalize 0 as a.
  induction n as [|n IH]; intros a; cbn [seq map filter].
  - auto.
  - destruct (IH (S a)) as (H1 & H2 & H3).
    cbn [Store.leaf IsChunkManifest negb length]. rewrite H1, H2, H3. auto.
Qed.

(** 25000 leaves and a store that accepts every blob. *)
Lemma MaybeManifestize_batches_witness :
  exists m1 m2,
    @MaybeManifestize Store.collaborators Store.save (Store.leaves 25000) 3 tt
    = Some (tt, ([m1; m2] ++ skipn (2 * ManifestBatch) (Store.leaves 25000), None))
    /\ IsChunkManifest m1 = true /\ IsChunkManifest m2 = true
    /\ length (skipn (2 * ManifestBatch) (Store.leaves 25000)) = 5000.
Proof.
  destruct (Store_leaves_leaves 25000) as (Hleaves & Hmanifests & Hlength).
  destruct (@MaybeManifestize_batches Store.collaborators Store.save
              (Store.leaves 25000) 3 tt)
    as (_ & _ & _ & _ & _ & Hnone & Hsucc & H25).
  { rewrite Hleaves, Hlength. apply Nat.ltb_lt. vm_compute. reflexivity. }
  rewrite Hleaves in Hnone, H25. rewrite Hleaves, Hmanifests in Hsucc.
  destruct (H25 Hlength) as [Hk Hleft]. rewrite Hk in Hsucc, Hleft.
  destruct Hnone as (w' & out & Hrun).
  { apply (@merge_each_succeeds Store.collaborators Store.save).
    - reflexivity.
    - intros. eexists. reflexivity. }
  destruct (Hsucc w' out Hrun) as (merged & handed & _ & Hout & Hlen & Hman).
  destruct merged as [|m1 [|m2 [|m3 merged]]]; try (simpl in Hlen; discriminate Hlen).
  inversion Hman as [|? ? H1 Hman']. inversion Hman' as [|? ? H2 _].
  exists m1, m2. destruct w'. rewrite Hrun, Hout, app_nil_l.
  split; [reflexivity|]. split; [exact H1|]. split; [exact H2|].
  exact Hleft.
Defined.

(** The failure path of the builder, for any chunk list. *)
Lemma MaybeManifestize_fallback `{Collaborators}
      (saveFunc : SaveDataAsChunkFunctionType) (inputChunks : list FileChunk)
      (fuel : nat) (w w' : World) (merged : list FileChunk) (handed : nat) (e : error) :
  let leaves := filter (fun c => negb (IsChunkManifest c)) inputChunks in
  let fallback :=
    map BeforeEntrySerialization (firstn (handed * ManifestBatch) leaves)
        ++ skipn (handed * ManifestBatch) leaves in
  length leaves / ManifestBatch < fuel ->
  merge_each saveFunc (full_batches ManifestBatch leaves) w
  = (w', merged, handed, Some e) ->
  MaybeManifestize saveFunc inputChunks fuel w = Some (w', (fallback, Some e))
  /\ length fallback = length leaves
  /\ 0 < handed /\ handed * ManifestBatch <= length leaves
  /\ ((forall c, BeforeEntrySerialization c = c) -> fallback = leaves).
Proof.
  intros leaves fallback Hfuel Hm.
  pose proof (MaybeManifestize_outcome saveFunc inputChunks fuel w Hfuel) as Hout.
  fold leaves in Hout. unfold loop_outcome in Hout.
  unfold full_batches in Hm. rewrite Hm in Hout.
  destruct (merge_each_handed _ _ _ _ _ _ _ Hm) as [Hpos Hle].
  rewrite batches_of_length in Hle.
  assert (Hk : length leaves / ManifestBatch * ManifestBatch <= length leaves).
  { rewrite Nat.mul_comm. apply Nat.Div0.mul_div_le. }
  assert (Hh : handed * ManifestBatch <= length leaves).
  { etransitivity; [apply Nat.mul_le_mono_r; exact Hle | exact Hk]. }
  split; [exact Hout|]. split.
  { unfold fallback. rewrite length_app, length_map, length_firstn, length_skipn. lia. }
  split; [exact Hpos|]. split; [exact Hh|].
  intros Hid. unfold fallback.
  rewrite (map_ext _ (fun c => c) Hid), map_id. apply firstn_skipn.
Qed.

(** C9, as amended.  When the merge of a full batch fails,
    [MaybeManifestize] returns that error together with the leaf
    (non-manifest) chunks of the input, all of them and in input order
    (those of the batches handed to the merge as the pre-serialization
    hook left them, the same chunks when the hook changes nothing): no
    manifest chunk made so far is returned.  (The manifest chunks of the
    input are not part of what is returned.) *)
Theorem MaybeManifestize_failure `{Collaborators}
        (saveFunc : SaveDataAsChunkFunctionType) (inputChunks : list FileChunk)
        (fuel : nat) (w w' : World) (merged : list FileChunk) (handed : nat)
        (e : error) :
  let leaves := filter (fun c => negb (IsChunkManifest c)) inputChunks in
  let fallback :=
    map BeforeEntrySerialization (firstn (handed * ManifestBatch) leaves)
        ++ skipn (handed * ManifestBatch) leaves in
  length leaves / ManifestBatch < fuel ->
  merge_each saveFunc (full_batches ManifestBatch leaves) w
  = (w', merged, handed, Some e) ->
  MaybeManifestize saveFunc inputChunks fuel w = Some (w', (fallback, Some e))
  /\ length fallback = length leaves
  /\ 0 < handed /\ handed * ManifestBatch <= length leaves
  /\ ((forall c, BeforeEntrySerialization c = c) -> fallback = leaves).
Proof. exact (MaybeManifestize_fallback saveFunc inputChunks fuel w w' merged handed e). Qed.

Lemma filter_skip {A : Type} (f : A -> bool) (x : A) (l : list A) :
  f x = false -> filter f (x :: l) = filter f l.
Proof. intros Hx. simpl. now rewrite Hx. Qed.

Lemma filter_keep {A : Type} (f : A -> bool) (x : A) (l : list A) :
  f x = true -> filter f (x :: l) = x :: filter f l.
Proof. intros Hx. simpl. now rewrite Hx. Qed.

(** One full batch and a store that is full: the merge of the batch
    fails. *)
Lemma Store_full_batch_fails (leaves : list FileChunk) :
  length leaves = ManifestBatch ->
  @merge_each Store.collaborators Store.save_fails
              (full_batches ManifestBatch leaves) tt
  = (tt, [], 1, Some "no free volumes"%string).
Proof.
  intros Hlen. unfold full_batches. rewrite Hlen.
  rewrite Nat.div_same by (pose proof ManifestBatch_positive; lia).
  generalize ManifestBatch as size. intros size.
  cbn [batches_of merge_each]. unfold mergeIntoManifest.
  cbn [Marshal Store.collaborators].
  destruct (fold_left _ _ _) as [mn mx]. reflexivity.
Qed.

Lemma Store_fallback :
  @MaybeManifestize Store.collaborators Store.save_fails
                    (Store.m1 :: Store.leaves ManifestBatch) 2 tt
  = Some (tt, (Store.leaves ManifestBatch, Some "no free volumes"%string)).
Proof.
  destruct (Store_leaves_leaves ManifestBatch) as (Hleaves & _ & Hlength).
  destruct (@MaybeManifestize_fallback Store.collaborators Store.save_fails
              (Store.m1 :: Store.leaves ManifestBatch) 2 tt tt [] 1
              "no free volumes"%string) as (Hrun & _ & _ & _ & Hsame).
  - rewrite filter_skip, Hleaves, Hlength by reflexivity.
    rewrite Nat.div_same by (pose proof ManifestBatch_positive; lia). lia.
  - rewrite filter_skip, Hleaves by reflexivity.
    now apply Store_full_batch_fails.
  - rewrite Hrun, Hsame by reflexivity.
    rewrite filter_skip, Hleaves by reflexivity. reflexivity.
Qed.

(** A manifest chunk, one full batch of leaves, and a store that is full. *)
Lemma MaybeManifestize_failure_witness :
  @MaybeManifestize Store.collaborators Store.save_fails
                    (Store.m1 :: Store.leaves ManifestBatch) 2 tt
  = Some (tt, (map (fun c => c) (firstn (1 * ManifestBatch) (Store.leaves ManifestBatch))
                   ++ skipn (1 * ManifestBatch) (Store.leaves ManifestBatch),
               Some "no free volumes"%string))
  /\ 1 * ManifestBatch <= length (Store.leaves ManifestBatch).
Proof.
  destruct (Store_leaves_leaves ManifestBatch) as (Hleaves & _ & Hlength).
  destruct (@MaybeManifestize_failure Store.collaborators Store.save_fails
              (Store.m1 :: Store.leaves ManifestBatch) 2 tt tt [] 1
              "no free volumes"%string) as (Hrun & _ & _ & Hle & _).
  - rewrite filter_skip, Hleaves, Hlength by reflexivity.
    rewrite Nat.div_same by (pose proof ManifestBatch_positive; lia). lia.
  - rewrite filter_skip, Hleaves by reflexivity.
    now apply Store_full_batch_fails.
  - rewrite filter_skip, Hleaves in Hrun, Hle by reflexivity.
    split; [exact Hrun | exact Hle].
Defined.

(** C9, as stated, fails: the input holds the manifest chunk ["m1"], the
    merge of the one full batch fails, and what comes back with the error
    is the 10000 leaves without ["m1"], not the caller's chunk list. *)
Lemma MaybeManifestize_fallback_drops_manifests :
  exists out,
    @MaybeManifestize Store.collaborators Store.save_fails
                      (Store.m1 :: Store.leaves ManifestBatch) 2 tt
    = Some (tt, (out, Some "no free volumes"%string))
    /\ filter IsChunkManifest (Store.m1 :: Store.leaves ManifestBatch) = [Store.m1]
    /\ filter IsChunkManifest out = []
    /\ out <> Store.m1 :: Store.leaves ManifestBatch.
Proof.
  destruct (Store_leaves_leaves ManifestBatch) as (_ & Hnone & _).
  exists (Store.leaves ManifestBatch).
  split; [exact Store_fallback|]. split.
  { rewrite filter_keep, Hnone by reflexivity. reflexivity. }
  split; [exact Hnone|].
  intros Heq. apply (f_equal (filter IsChunkManifest)) in Heq.
  rewrite filter_keep, Hnone in Heq by reflexivity. discriminate Heq.
Qed.

(** ** The range of a manifest chunk *)

Lemma to_uint64_sub (a b : Z) :
  (0 <= a - b < Int64.modulus)%Z ->
  Int64.to_uint64 (Int64.sub a b) = (a - b)%Z.
Proof.
  intros Hr. unfold Int64.to_uint64, Int64.sub, Int64.wrap, Int64.modulus in *.
  rewrite Zminus_mod_idemp_l.
  replace (a - b + 2 ^ 63 - 2 ^ 63)%Z with (a - b)%Z by lia.
  apply Z.mod_small. exact Hr.
Qed.

Lemma min_max_fold (l : list FileChunk) :
  forall mn mx,
    fold_left min_max_step l (mn, mx)
    = (fold_left Z.min (map Offset l) mn,
       fold_left Z.max (map chunk_end l) mx).
Proof.
  induction l as [|c l IH]; intros mn mx; cbn [fold_left map]; [reflexivity|].
  unfold min_max_step at 2. fold (chunk_end c).
  replace (Int64.add (Int64.of_uint64 (Size c)) (Offset c)) with (chunk_end c)
    by (unfold chunk_end, Int64.add; f_equal; lia).
  rewrite IH. f_equal; f_equal.
  - destruct (Z.gtb_spec mn (Offset c)); lia.
  - destruct (Z.ltb_spec mx (chunk_end c)); lia.
Qed.

Lemma fold_min_spec (l : list Z) :
  forall init,
    (fold_left Z.min l init <= init)%Z
    /\ Forall (fun x => fold_left Z.min l init <= x)%Z l
    /\ (fold_left Z.min l init = init \/ In (fold_left Z.min l init) l).
Proof.
  induction l as [|x l IH]; intros init; simpl.
  - repeat split; [lia | constructor | now left].
  - destruct (IH (Z.min init x)) as (Hle & Hall & Hin).
    split; [lia|]. split; [constructor; [lia | exact Hall]|].
    destruct Hin as [Heq|Hin]; [|now right; right].
    rewrite Heq.
    destruct (Z.min_spec init x) as [[_ Hm]|[_ Hm]]; [left | right; left]; lia.
Qed.

Lemma fold_max_spec (l : list Z) :
  forall init,
    (init <= fold_left Z.max l init)%Z
    /\ Forall (fun x => x <= fold_left Z.max l init)%Z l
    /\ (fold_left Z.max l init = init \/ In (fold_left Z.max l init) l).
Proof.
  induction l as [|x l IH]; intros init; simpl.
  - repeat split; [lia | constructor | now left].
  - destruct (IH (Z.max init x)) as (Hle & Hall & Hin).
    split; [lia|]. split; [constructor; [lia | exact Hall]|].
    destruct Hin as [Heq|Hin]; [|now right; right].
    rewrite Heq.
    destruct (Z.max_spec init x) as [[_ Hm]|[_ Hm]]; [right; left | left]; lia.
Qed.

(** The two bounds the loop of lines 251-258 leaves, for a batch that is
    not empty and whose chunks lie in the [int64] coordinate space. *)
Lemma min_max_bounds (l : list FileChunk) (mn mx : Z) :
  l <> [] ->
  Forall chunk_fits l ->
  fold_left min_max_step l (Int64.MaxInt64, Int64.MinInt64) = (mn, mx) ->
  Forall (fun c => mn <= Offset c)%Z l
  /\ Exists (fun c => Offset c = mn) l
  /\ Forall (fun c => Offset c + Size c <= mx)%Z l
  /\ Exists (fun c => (Offset c + Size c)%Z = mx) l
  /\ (0 <= mx - mn < Int64.modulus)%Z.
Proof.
  intros Hne Hfits. rewrite min_max_fold. intros [= <- <-].
  destruct (fold_min_spec (map Offset l) Int64.MaxInt64) as (Hmn_le & Hmn_all & Hmn_in).
  destruct (fold_max_spec (map chunk_end l) Int64.MinInt64)
    as (Hmx_le & Hmx_all & Hmx_in).
  set (mn := fold_left Z.min (map Offset l) Int64.MaxInt64) in *.
  set (mx := fold_left Z.max (map chunk_end l) Int64.MinInt64) in *.
  rewrite Forall_map in Hmn_all, Hmx_all.
  assert (Hends : Forall (fun c => Offset c + Size c <= mx)%Z l).
  { rewrite Forall_forall in *. intros c Hc.
    rewrite <- (chunk_end_fits c) by auto. auto. }
  assert (Hmin : Exists (fun c => Offset c = mn) l).
  { destruct Hmn_in as [Heq|Hin].
    - destruct l as [|c l]; [congruence|]. left.
      inversion Hfits as [|? ? (Ho & _) _]; subst.
      inversion Hmn_all; subst. unfold Int64.in_range in Ho. lia.
    - apply in_map_iff in Hin as (c & Hc & Hin).
      apply Exists_exists. eauto. }
  assert (Hmax : Exists (fun c => (Offset c + Size c)%Z = mx) l).
  { destruct Hmx_in as [Heq|Hin].
    - destruct l as [|c l]; [congruence|]. left.
      inversion Hfits as [|? ? (Ho & Hs & _) _]; subst.
      inversion Hends; subst. unfold Int64.in_range in Ho. lia.
    - apply in_map_iff in Hin as (c & Hc & Hin).
      apply Exists_exists. exists c. split; [exact Hin|].
      rewrite Forall_forall in Hfits. now rewrite <- chunk_end_fits by auto. }
  repeat (split; [assumption|]).
  apply Exists_exists in Hmin as (c1 & Hc1 & Ho1).
  apply Exists_exists in Hmax as (c2 & Hc2 & Ho2).
  rewrite Forall_forall in Hfits, Hmn_all, Hends.
  pose proof (Hfits c1 Hc1) as (Hr1 & Hs1 & He1).
  pose proof (Hfits c2 Hc2) as (Hr2 & Hs2 & He2).
  pose proof (Hends c1 Hc1). pose proof (Hmn_all c2 Hc2).
  unfold Int64.in_range, Int64.MinInt64, Int64.MaxInt64, Int64.modulus in *.
  change (2 ^ 63)%Z with 9223372036854775808%Z in *.
  change (2 ^ 64)%Z with 18446744073709551616%Z in *. lia.
Qed.




(** * Further properties *)

(** ** Manifest classifier *)

(** [HasChunkManifest] is true exactly when some chunk of the list is a
    manifest, and exactly when [SeparateManifestChunks] finds one. *)
Theorem HasChunkManifest_iff (chunks : list FileChunk) :
  (HasChunkManifest chunks = true
   <-> exists c, In c chunks /\ IsChunkManifest c = true)
  /\ (HasChunkManifest chunks = false
      <-> fst (SeparateManifestChunks chunks) = []).
Proof.
  unfold SeparateManifestChunks. rewrite separate_from_filter. cbn [fst app].
  induction chunks as [|c chunks [IH1 IH2]]; cbn [HasChunkManifest filter].
  - split; split; try reflexivity; try discriminate.
    intros (c & [] & _).
  - destruct (IsChunkManifest c) eqn:Hc.
    + split; split; try discriminate; try reflexivity.
      intros _. exists c. split; [now left | exact Hc].
    + split; [|exact IH2]. rewrite IH1. split.
      * intros (c' & Hin & Hc'). exists c'. split; [now right | exact Hc'].
      * intros (c' & [->|Hin] & Hc'); [congruence|]. eauto.
Qed.

(** [SeparateManifestChunks] is a stable partition: the first result is
    the manifest chunks in input order, the second the other chunks in
    input order, and together they are the input rearranged. *)
Theorem SeparateManifestChunks_partition (chunks : list FileChunk) :
  SeparateManifestChunks chunks
  = (filter IsChunkManifest chunks,
     filter (fun c => negb (IsChunkManifest c)) chunks)
  /\ Permutation.Permutation
       (fst (SeparateManifestChunks chunks) ++ snd (SeparateManifestChunks chunks))
       chunks
  /\ length (fst (SeparateManifestChunks chunks))
     + length (snd (SeparateManifestChunks chunks)) = length chunks.
Proof.
  unfold SeparateManifestChunks. rewrite separate_from_filter. cbn [fst snd app].
  split; [reflexivity|].
  assert (Hperm : Permutation.Permutation
                    (filter IsChunkManifest chunks
                       ++ filter (fun c => negb (IsChunkManifest c)) chunks)
                    chunks).
  { induction chunks as [|c chunks IH]; cbn [filter]; [constructor|].
    destruct (IsChunkManifest c); cbn [negb app].
    - now constructor.
    - apply Permutation.Permutation_sym, Permutation.Permutation_cons_app.
      now apply Permutation.Permutation_sym. }
  split; [exact Hperm|].
  rewrite <- length_app. now apply Permutation.Permutation_length.
Qed.

(** ** Manifest resolver *)

(** What [ResolveOneChunkManifest] can return.  On a chunk that is not a
    manifest it returns no chunk and no error without looking anything
    up, whatever the fuel.  When the lookup of a manifest fails it
    returns the lookup's error, wrapped, in the world the lookup left: no
    location is read.  And whenever it returns an error, it returns no
    chunk, the chunk was a manifest, and the error names its file id. *)
Theorem ResolveOneChunkManifest_outcomes `{Collaborators}
        (lookupFileIdFn : LookupFileIdFunctionType) (chunk : FileChunk)
        (fuel : nat) (w : World) :
  (IsChunkManifest chunk = false ->
   ResolveOneChunkManifest lookupFileIdFn chunk fuel w = Some (w, ([], None)))
  /\ (forall w1 urlStrings e,
        IsChunkManifest chunk = true ->
        lookupFileIdFn (FileId chunk) w = (w1, (urlStrings, Some e)) ->
        ResolveOneChunkManifest lookupFileIdFn chunk fuel w
        = Some (w1, ([], Some ("fail to read manifest " ++ FileId chunk
                                 ++ ": " ++ e)%string)))
  /\ (forall w' chunks e,
        ResolveOneChunkManifest lookupFileIdFn chunk fuel w
        = Some (w', (chunks, Some e)) ->
        chunks = [] /\ IsChunkManifest chunk = true
        /\ exists cause,
            e = ("fail to read manifest " ++ FileId chunk ++ ": " ++ cause)%string
            \/ e = ("fail to unmarshal manifest " ++ FileId chunk
                      ++ ": " ++ cause)%string).
Proof.
  unfold ResolveOneChunkManifest. split; [|split].
  - intros ->. reflexivity.
  - intros w1 urlStrings e -> Hlookup. cbn [negb].
    unfold fetchWholeChunk. rewrite Hlookup. reflexivity.
  - intros w' chunks e.
    destruct (IsChunkManifest chunk); cbn [negb]; [|discriminate].
    destruct (fetchWholeChunk _ _ _ _ _ _ _) as [[[w1 bytesBuffer] [e1|]]|];
      [| |discriminate].
    + intros [= <- <- <-]. repeat split. exists e1. now left.
    + destruct (Unmarshal bytesBuffer) as [m_Chunks [e2|]]; [|discriminate].
      intros [= <- <- <-]. repeat split. exists e2. now right.
Qed.

(** The lookup of ["m1"] fails. *)
Lemma ResolveOneChunkManifest_outcomes_witness :
  @ResolveOneChunkManifest Store.collaborators Store.lookup Store.l1 0 tt
  = Some (tt, ([], None))
  /\ @ResolveOneChunkManifest Store.collaborators
       (fun _ w => (w, ([], Some "volume not found"%string))) Store.m1 0 tt
     = Some (tt, ([], Some "fail to read manifest m1: volume not found"%string)).
Proof.
  destruct (@ResolveOneChunkManifest_outcomes Store.collaborators Store.lookup
              Store.l1 0 tt) as (Hleaf & _ & _).
  destruct (@ResolveOneChunkManifest_outcomes Store.collaborators
              (fun _ w => (w, ([], Some "volume not found"%string)))
              Store.m1 0 tt) as (_ & Hlookup & Herr).
  split; [exact (Hleaf eq_refl)|].
  pose proof (Hlookup tt [] "volume not found"%string eq_refl eq_refl) as Hrun.
  destruct (Herr _ _ _ Hrun) as (_ & _ & _).
  exact Hrun.
Defined.

Lemma resolve_loop_skips `{Collaborators} subDataChunks subManifestChunks
      recur decode original startOffset stopOffset :
  forall rest dataChunks manifestChunks w,
    (forall c, In c rest -> IsChunkManifest c = true ->
               range_test startOffset stopOffset c = false) ->
    resolve_loop subDataChunks subManifestChunks recur decode original
                 startOffset stopOffset rest dataChunks manifestChunks w
    = Some (w, (dataChunks
                  ++ filter (fun c => range_test startOffset stopOffset c
                                      && negb (IsChunkManifest c)) rest,
                manifestChunks, None)).
Proof.
  induction rest as [|c rest IH]; intros dataChunks manifestChunks w Hskip;
    cbn [resolve_loop filter].
  - now rewrite app_nil_r.
  - rewrite out_of_range_range_test.
    destruct (range_test startOffset stopOffset c) eqn:Hr; cbn [negb andb].
    + destruct (IsChunkManifest c) eqn:Hc; cbn [negb].
      * rewrite (Hskip c (or_introl eq_refl) Hc) in Hr. discriminate.
      * rewrite IH by (intros c' Hin; apply Hskip; now right).
        now rewrite <- app_assoc.
    + apply IH. intros c' Hin. apply Hskip. now right.
Qed.

(** Manifest chunks that fail the range test are never fetched: when no
    manifest of the list passes the test, [ResolveChunkManifest] returns
    the leaves that pass it, in order, with no manifest and no error, and
    leaves the world as it was. *)
Theorem ResolveChunkManifest_skips_manifests `{Collaborators}
        (lookupFileIdFn : LookupFileIdFunctionType)
        (subDataChunks subManifestChunks chunks : list FileChunk)
        (startOffset stopOffset : Z) (fuel : nat) (w : World) :
  (forall c, In c chunks -> IsChunkManifest c = true ->
             range_test startOffset stopOffset c = false) ->
  ResolveChunkManifest lookupFileIdFn subDataChunks subManifestChunks
                       (S fuel) chunks startOffset stopOffset w
  = Some (w, (filter (fun c => range_test startOffset stopOffset c
                               && negb (IsChunkManifest c)) chunks,
              [], None)).
Proof.
  intros Hskip. cbn [ResolveChunkManifest].
  now rewrite resolve_loop_skips by exact Hskip.
Qed.

(** The manifest ["m2"] covers [[0,50)] and the range is [[60,100)]. *)
Lemma ResolveChunkManifest_skips_manifests_witness :
  @ResolveChunkManifest Store.collaborators Store.lookup [] [] 1
                        [Store.m2; Store.l1; Store.l2] 60 100 tt
  = Some (tt, ([Store.l2], [], None)).
Proof.
  apply (@ResolveChunkManifest_skips_manifests Store.collaborators Store.lookup
           [] [] [Store.m2; Store.l1; Store.l2] 60 100 0 tt).
  intros c [<-|[<-|[<-|[]]]]; intros Hc; try discriminate Hc. reflexivity.
Defined.

(** An empty range resolves to nothing: with [stopOffset <= startOffset]
    no chunk passes the range test, so the call returns no chunk, no
    manifest and no error and fetches nothing, whatever the list holds. *)
Theorem ResolveChunkManifest_empty_range `{Collaborators}
        (lookupFileIdFn : LookupFileIdFunctionType)
        (subDataChunks subManifestChunks chunks : list FileChunk)
        (startOffset stopOffset : Z) (fuel : nat) (w : World) :
  (stopOffset <= startOffset)%Z ->
  ResolveChunkManifest lookupFileIdFn subDataChunks subManifestChunks
                       (S fuel) chunks startOffset stopOffset w
  = Some (w, ([], [], None)).
Proof.
  intros Hempty.
  assert (Hnone : forall c, range_test startOffset stopOffset c = false).
  { intros c. unfold range_test. apply Z.ltb_ge. lia. }
  cbn [ResolveChunkManifest].
  rewrite resolve_loop_skips by (intros; apply Hnone). cbn [app].
  f_equal. f_equal. f_equal. f_equal.
  induction chunks as [|c chunks IH]; cbn [filter]; [reflexivity|].
  now rewrite Hnone.
Qed.

Lemma ResolveChunkManifest_empty_range_witness :
  @ResolveChunkManifest Store.collaborators Store.lookup [] [] 1
                        [Store.m1; Store.l1; Store.m3] 70 70 tt
  = Some (tt, ([], [], None)).
Proof.
  apply (@ResolveChunkManifest_empty_range Store.collaborators Store.lookup
           [] [] [Store.m1; Store.l1; Store.m3] 70 70 0 tt).
  lia.
Defined.

(** A list with a leaf, the manifest ["m1"] (two leaves inside) and
    another leaf. *)
Lemma ResolveChunkManifest_top_level_witness :
  exists n, forall fuel, n <= fuel ->
    @ResolveChunkManifest Store.collaborators Store.lookup [] [] fuel
                          [Store.l1; Store.m1; Store.l3] 0 1000 tt
    = Some (tt, ([Store.l1; Store.l3], [Store.m1], None)).
Proof.
  apply (@ResolveChunkManifest_top_level Store.collaborators Store.lookup [] []
           0 1000 [Store.l1; Store.m1; Store.l3] tt tt).
  apply tr_leaf; [reflexivity | reflexivity |].
  apply tr_manifest with (fuel := 1) (w1 := tt) (children := [Store.l1; Store.l2])
                         (w2 := tt);
    [reflexivity | reflexivity | reflexivity | |].
  - apply tr_leaf; [reflexivity | reflexivity |].
    apply tr_leaf; [reflexivity | reflexivity |]. apply tr_nil.
  - apply tr_leaf; [reflexivity | reflexivity |]. apply tr_nil.
Defined.

(** ** Replica fetcher *)

Section TraceFacts.
Context `{Collaborators}.
Variable P : Type.
Variable attempt : string -> Session P -> Session P.
Variable name : string -> string.

(** An attempt logs one read, of the location [name u], and takes
    [shouldRetry] and [err] from it. *)
Hypothesis attempt_named : forall u s, exists r,
  log (attempt u s) = log s ++ [EvRead (name u) r]
  /\ shouldRetry (attempt u s) = retryable r
  /\ err (attempt u s) = read_err r.

(** One pass over the locations reads a prefix of them, in order, and
    all of them when it ends on a failure that may be retried. *)
Lemma try_locations_shape urlStrings :
  forall s, exists m,
    m <= length urlStrings
    /\ map shape (log (try_locations attempt urlStrings s))
       = map shape (log s) ++ map inl (firstn m (map name urlStrings))
    /\ (shouldRetry (try_locations attempt urlStrings s) = true ->
        err (try_locations attempt urlStrings s) <> None ->
        m = length urlStrings).
Proof.
  induction urlStrings as [|u rest IH]; intros s; cbn [try_locations].
  - exists 0. cbn. rewrite app_nil_r. auto.
  - destruct (attempt_named u s) as (r & Hlog & Hsr & Herr).
    assert (Hone : map shape (log (attempt u s))
                   = map shape (log s) ++ map inl (firstn 1 (map name (u :: rest)))).
    { rewrite Hlog, map_app. reflexivity. }
    destruct (shouldRetry (attempt u s)) eqn:Hs1; cbn [negb].
    + destruct (err (attempt u s)) as [e|] eqn:He1.
      * destruct (IH (attempt u s)) as (m & Hm & Hshape & Hfull).
        exists (S m). split; [cbn; lia|]. split.
        -- rewrite Hshape, Hlog, map_app, <- app_assoc. reflexivity.
        -- intros Ha Hb. cbn. f_equal. now apply Hfull.
      * exists 1. split; [cbn; lia|]. split; [exact Hone|].
        intros _ Hb. congruence.
    + exists 1. split; [cbn; lia|]. split; [exact Hone|].
      intros Ha. congruence.
Qed.

Variable urlStrings : list string.
Hypothesis ceiling : (RetryWaitTime <= 2 ^ 62)%Z.

(** From round [i], when the wait of round [i + d] has reached the
    ceiling: fuel [d + 1] is enough, at most [d] rounds end with a sleep,
    and the trace is these full rounds and a last pass. *)
Lemma retry_rounds_shape :
  forall d i s,
    (RetryWaitTime <= wait_at (i + d))%Z ->
    exists r j m,
      retry_rounds attempt (S d) (wait_at i) urlStrings s = Some r
      /\ j <= d /\ m <= length urlStrings
      /\ map shape (log r)
         = map shape (log s) ++ full_rounds (map name urlStrings) i j
             ++ map inl (firstn m (map name urlStrings))
      /\ (forall t, i <= t < i + j -> (wait_at t < RetryWaitTime)%Z).
Proof.
  induction d as [|d IH]; intros i s Hd; rewrite retry_rounds_S.
  - rewrite Nat.add_0_r in Hd.
    destruct (Z.ltb_spec (wait_at i) RetryWaitTime) as [Hlt|Hge]; [lia|].
    exists s, 0, 0. cbn. rewrite app_nil_r.
    repeat split; try lia; auto.
  - destruct (Z.ltb_spec (wait_at i) RetryWaitTime) as [Hlt|Hge].
    + destruct (try_locations_shape urlStrings s) as (m & Hm & Hshape & Hfull).
      destruct (err (try_locations attempt urlStrings s)) as [e|] eqn:He;
        [destruct (shouldRetry (try_locations attempt urlStrings s)) eqn:Hs|].
      * (* another round *)
        pose proof (wait_at_lower i) as Hlow. unfold time_Second in Hlow.
        assert (Hstep : Int64.add (wait_at i) (Z.quot (wait_at i) 2) = wait_at (S i)).
        { rewrite wait_at_succ, Z.quot_div_nonneg by lia.
          unfold Int64.add. apply wrap_in_range.
          unfold Int64.in_range, Int64.MinInt64, Int64.MaxInt64.
          assert (0 <= wait_at i / 2 <= wait_at i)%Z.
          { split; [apply Z.div_pos; lia | apply Z.div_le_upper_bound; lia]. }
          change (2 ^ 62)%Z with 4611686018427387904%Z in ceiling.
          change (2 ^ 63)%Z with 9223372036854775808%Z. lia. }
        rewrite Hstep.
        destruct (IH (S i) (sleep (wait_at i) (try_locations attempt urlStrings s)))
          as (r & j & m' & Hrun & Hj & Hm' & Hlog & Hbelow).
        { replace (S i + d) with (i + S d) by lia. exact Hd. }
        exists r, (S j), m'. rewrite Hrun.
        split; [reflexivity|]. split; [lia|]. split; [exact Hm'|]. split.
        -- rewrite Hlog. unfold sleep. cbn [log]. rewrite map_app, Hshape.
           rewrite (Hfull eq_refl ltac:(discriminate)), firstn_all2
             by (rewrite length_map; lia).
           unfold full_rounds. cbn [seq map concat shape].
           rewrite <- !app_assoc. reflexivity.
        -- intros t Ht. destruct (Nat.eq_dec t i) as [->|Hne]; [exact Hlt|].
           apply Hbelow. lia.
      * exists (try_locations attempt urlStrings s), 0, m. cbn.
        repeat split; try lia; auto.
      * exists (try_locations attempt urlStrings s), 0, m. cbn.
        repeat split; try lia; auto.
    + exists s, 0, 0. cbn. rewrite app_nil_r.
      repeat split; try lia; auto.
Qed.

End TraceFacts.

Lemma stopping_is_last (f : Event -> bool) (l pre post : list Event) (x y : Event) :
  Forall (fun ev => f ev = true) l ->
  l ++ [x] = pre ++ y :: post ->
  f y = false ->
  post = [] /\ y = x.
Proof.
  revert pre. induction l as [|a l IH]; intros pre Hl Heq Hy.
  - destruct pre as [|p pre]; cbn in Heq.
    + inversion Heq; subst. auto.
    + inversion Heq as [[Hp Hnil]]. destruct pre; discriminate.
  - inversion Hl as [|? ? Ha Hl']; subst.
    destruct pre as [|p pre]; cbn in Heq.
    + inversion Heq; subst. congruence.
    + inversion Heq; subst. eapply IH; eauto.
Qed.

Section LastReadFacts.
Context `{Collaborators}.
Variable P : Type.
Variable attempt : string -> Session P -> Session P.

Hypothesis attempt_reads : forall u s, exists u' r,
  log (attempt u s) = log s ++ [EvRead u' r]
  /\ shouldRetry (attempt u s) = retryable r
  /\ err (attempt u s) = read_err r.

(** Every event so far makes the loops go on, and [shouldRetry] and
    [err] are those of the last read. *)
Local Abbreviation going s :=
  (Forall (fun ev => goes_on ev = true) (log s)
   /\ match last_read (log s) with
      | Some r => shouldRetry s = retryable r /\ err s = read_err r
      | None => err s = None
      end).

Lemma going_ends (s : Session P) : going s -> ends_on_last_read s.
Proof.
  intros [Hall Hlast]. split; [exact Hlast|].
  intros pre ev post Hlog Hev. exfalso.
  rewrite Hlog in Hall. apply Forall_app in Hall as [_ Hall].
  inversion Hall; subst. congruence.
Qed.

Lemma try_locations_ends urlStrings :
  forall s, going s ->
    ends_on_last_read (try_locations attempt urlStrings s)
    /\ (shouldRetry (try_locations attempt urlStrings s) = true ->
        err (try_locations attempt urlStrings s) <> None ->
        going (try_locations attempt urlStrings s)).
Proof.
  induction urlStrings as [|u rest IH]; intros s Hs; cbn [try_locations].
  - split; [now apply going_ends | auto].
  - destruct (attempt_reads u s) as (u' & r & Hlog & Hsr & Herr).
    assert (Hlast : match last_read (log (attempt u s)) with
                    | Some r => shouldRetry (attempt u s) = retryable r
                                /\ err (attempt u s) = read_err r
                    | None => err (attempt u s) = None
                    end).
    { rewrite Hlog, last_read_read. auto. }
    assert (Hstop : goes_on (EvRead u' r) = false ->
                    ends_on_last_read (attempt u s)).
    { intros Hev. split; [exact Hlast|].
      intros pre ev post Hlog' Hev'. rewrite Hlog in Hlog'.
      now destruct (stopping_is_last goes_on _ _ _ _ _ (proj1 Hs) Hlog' Hev'). }
    destruct (shouldRetry (attempt u s)) eqn:Hs1; cbn [negb].
    + destruct (err (attempt u s)) as [e|] eqn:He1.
      * apply IH. split; [|rewrite Hs1, He1; exact Hlast].
        rewrite Hlog. apply Forall_app. split; [exact (proj1 Hs)|].
        constructor; [|constructor]. cbn. now rewrite <- Hsr, <- Herr.
      * split; [|congruence]. apply Hstop. cbn. rewrite <- Herr.
        apply andb_false_r.
    + split; [|congruence]. apply Hstop. cbn. now rewrite <- Hsr.
Qed.

Lemma retry_rounds_ends urlStrings :
  forall fuel waitTime s r,
    going s ->
    retry_rounds attempt fuel waitTime urlStrings s = Some r ->
    ends_on_last_read r.
Proof.
  induction fuel as [|fuel IH]; intros waitTime s r Hs Hr; [discriminate|].
  rewrite retry_rounds_S in Hr.
  destruct (waitTime <? RetryWaitTime)%Z;
    [|inversion Hr; subst; now apply going_ends].
  destruct (try_locations_ends urlStrings s Hs) as [Hends Hgoing].
  destruct (err (try_locations attempt urlStrings s)) as [e|] eqn:He;
    [|inversion Hr; subst; exact Hends].
  destruct (shouldRetry (try_locations attempt urlStrings s)) eqn:Hsr;
    [|inversion Hr; subst; exact Hends].
  apply IH in Hr; [exact Hr|].
  destruct (Hgoing eq_refl ltac:(discriminate)) as [Hall Hlast].
  unfold sleep. cbn [log shouldRetry err]. split.
  - apply Forall_app. split; [exact Hall | repeat constructor].
  - rewrite last_read_sleep, He, Hsr. exact Hlast.
Qed.
End LastReadFacts.

(** In both modes the fetch returns what its last read returned: the
    error (or [nil]) of the last [ReadUrlAsStream] call, and [nil] when no
    call was made.  A read that succeeded, or failed with
    [shouldRetry = false], is the last event of the session: every read
    before the last failed with an error that may be retried. *)
Theorem fetch_result_is_last_read `{Collaborators}
        (buffer writer : list byte) (urlStrings : list string)
        (cipherKey : list byte) (isGzipped isFullChunk : bool) (offset size : Z)
        (fuel : nat) (w : World) :
  (forall s,
      range_session buffer urlStrings cipherKey isGzipped isFullChunk offset fuel w
      = Some s ->
      ends_on_last_read s
      /\ retriedFetchChunkData buffer urlStrings cipherKey isGzipped isFullChunk
                               offset fuel w
         = Some (world s, fst (payload s), (snd (payload s), err s)))
  /\ (forall s,
      stream_session writer urlStrings cipherKey isGzipped isFullChunk offset size
                     fuel w = Some s ->
      ends_on_last_read s
      /\ retriedStreamFetchChunkData writer urlStrings cipherKey isGzipped
                                     isFullChunk offset size fuel w
         = Some (world s, fst (payload s), err s)).
Proof.
  split; intros s Hs.
  - split.
    + unfold range_session in Hs.
      eapply retry_rounds_ends in Hs;
        [exact Hs | apply range_attempt_reads | split; [constructor | reflexivity]].
    + unfold retriedFetchChunkData. now rewrite Hs.
  - split.
    + unfold stream_session in Hs.
      eapply retry_rounds_ends in Hs;
        [exact Hs | apply stream_attempt_reads | split; [constructor | reflexivity]].
    + unfold retriedStreamFetchChunkData. now rewrite Hs.
Qed.

(** The first read fails and may be retried, the second succeeds: two
    reads with a sleep in between, and no error. *)
Lemma fetch_result_is_last_read_witness :
  exists s,
    @stream_session Flaky.collaborators [] ["a"%string] [] false true 0 0 2 0 = Some s
    /\ ends_on_last_read s
    /\ map shape (log s) = [inl "a"%string; inr time_Second; inl "a"%string]
    /\ err s = None.
Proof.
  eexists. split; [reflexivity|].
  match goal with
  | |- ends_on_last_read ?s /\ _ =>
      destruct (@fetch_result_is_last_read Flaky.collaborators [] [] ["a"%string] []
                  false true 0 0 2 0) as [_ Hstream];
      destruct (Hstream s eq_refl) as [Hends _]
  end.
  split; [exact Hends|]. split; reflexivity.
Defined.

Lemma range_attempt_named `{Collaborators} cipherKey isGzipped isFullChunk offset :
  forall u s, exists r,
    log (range_attempt cipherKey isGzipped isFullChunk offset u s)
    = log s ++ [EvRead (range_url u) r]
    /\ shouldRetry (range_attempt cipherKey isGzipped isFullChunk offset u s)
       = retryable r
    /\ err (range_attempt cipherKey isGzipped isFullChunk offset u s) = read_err r.
Proof.
  intros u s. unfold range_attempt. fold (range_url u).
  destruct (ReadUrlAsStream _ _ _ _ _ _ _) as [w r].
  exists r. cbn. auto.
Qed.

Lemma stream_attempt_named `{Collaborators} cipherKey isGzipped isFullChunk offset size :
  forall u s, exists r,
    log (stream_attempt cipherKey isGzipped isFullChunk offset size u s)
    = log s ++ [EvRead u r]
    /\ shouldRetry (stream_attempt cipherKey isGzipped isFullChunk offset size u s)
       = retryable r
    /\ err (stream_attempt cipherKey isGzipped isFullChunk offset size u s)
       = read_err r.
Proof.
  intros u s.
  destruct (stream_attempt_reads cipherKey isGzipped isFullChunk offset size u s)
    as (u' & r & Hlog & Hsr & He).
  exists r. split; [|auto].
  rewrite Hlog. unfold stream_attempt in Hlog.
  destruct (payload s) as [sink totalWritten].
  destruct (ReadUrlAsStream _ _ _ _ _ _ _) as [w1 r1].
  destruct (fold_left _ _ _) as [[sink' tw'] lp'].
  cbn in Hlog. apply app_inv_head in Hlog. inversion Hlog. reflexivity.
Qed.

(** Both sessions, for any transport: enough fuel, and the trace. *)
Lemma sessions_trace `{Collaborators}
        (buffer writer : list byte) (urlStrings : list string)
        (cipherKey : list byte) (isGzipped isFullChunk : bool) (offset size : Z)
        (w : World) (k fuel : nat) :
  (RetryWaitTime <= 2 ^ 62)%Z ->
  (RetryWaitTime <= wait_at k)%Z ->
  k < fuel ->
  (exists s j m,
      range_session buffer urlStrings cipherKey isGzipped isFullChunk offset fuel w
      = Some s
      /\ j <= k /\ m <= length urlStrings
      /\ map shape (log s)
         = full_rounds (map range_url urlStrings) 0 j
             ++ map inl (firstn m (map range_url urlStrings))
      /\ (forall t, t < j -> (wait_at t < RetryWaitTime)%Z))
  /\ (exists s j m,
      stream_session writer urlStrings cipherKey isGzipped isFullChunk offset size
                     fuel w = Some s
      /\ j <= k /\ m <= length urlStrings
      /\ map shape (log s)
         = full_rounds urlStrings 0 j ++ map inl (firstn m urlStrings)
      /\ (forall t, t < j -> (wait_at t < RetryWaitTime)%Z)).
Proof.
  intros Hceiling Hk Hfuel. split.
  - destruct (retry_rounds_shape _ _ _
                (range_attempt_named cipherKey isGzipped isFullChunk offset)
                urlStrings Hceiling k 0 (mkSession w (buffer, 0%Z) false None []) Hk)
      as (s & j & m & Hrun & Hj & Hm & Hlog & Hbelow).
    exists s, j, m. split.
    { unfold range_session. eapply retry_rounds_mono; [exact Hrun | lia]. }
    repeat split; try assumption. intros t Ht. apply Hbelow. lia.
  - destruct (retry_rounds_shape _ _ (fun u => u)
                (stream_attempt_named cipherKey isGzipped isFullChunk offset size)
                urlStrings Hceiling k 0 (mkSession w (writer, 0%Z) false None []) Hk)
      as (s & j & m & Hrun & Hj & Hm & Hlog & Hbelow).
    rewrite map_id in Hlog.
    exists s, j, m. split.
    { unfold stream_session. eapply retry_rounds_mono; [exact Hrun | lia]. }
    repeat split; try assumption. intros t Ht. apply Hbelow. lia.
Qed.

(** The trace of a fetch, for any transport.  If the wait of round [k]
    has reached the ceiling, fuel above [k] is enough for both fetches to
    return, and what they did is: some [j <= k] full rounds, in each of
    which every location was read once, in the order of the list, and the
    wait of the round (below the ceiling) was slept after the last
    location; then one more pass over the first [m] locations, without a
    sleep after it.  The range fetch reads the path-escaped form of a
    location that contains a percent sign. *)
Theorem fetch_trace `{Collaborators}
        (buffer writer : list byte) (urlStrings : list string)
        (cipherKey : list byte) (isGzipped isFullChunk : bool) (offset size : Z)
        (w : World) (k fuel : nat) :
  (RetryWaitTime <= 2 ^ 62)%Z ->
  (RetryWaitTime <= wait_at k)%Z ->
  k < fuel ->
  (exists s j m,
      range_session buffer urlStrings cipherKey isGzipped isFullChunk offset fuel w
      = Some s
      /\ j <= k /\ m <= length urlStrings
      /\ map shape (log s)
         = full_rounds (map range_url urlStrings) 0 j
             ++ map inl (firstn m (map range_url urlStrings))
      /\ (forall t, t < j -> (wait_at t < RetryWaitTime)%Z))
  /\ (exists s j m,
      stream_session writer urlStrings cipherKey isGzipped isFullChunk offset size
                     fuel w = Some s
      /\ j <= k /\ m <= length urlStrings
      /\ map shape (log s)
         = full_rounds urlStrings 0 j ++ map inl (firstn m urlStrings)
      /\ (forall t, t < j -> (wait_at t < RetryWaitTime)%Z)).
Proof.
  exact (sessions_trace buffer writer urlStrings cipherKey isGzipped isFullChunk
                        offset size w k fuel).
Qed.

(** Two locations that are down and the ceiling of six seconds, which the
    wait of round 5 has passed. *)
Lemma fetch_trace_witness :
  (exists s j m,
      @range_session Down.collaborators [] ["a"; "b%"]%string [] false false 0 6 0
      = Some s
      /\ j <= 5 /\ m <= 2
      /\ map shape (log s)
         = full_rounds (map (@range_url Down.collaborators) ["a"; "b%"]%string) 0 j
             ++ map inl (firstn m (map (@range_url Down.collaborators)
                                       ["a"; "b%"]%string))
      /\ (forall t, t < j -> (wait_at t < 6 * time_Second)%Z))
  /\ (exists s j m,
      @stream_session Down.collaborators [] ["a"; "b%"]%string [] false false 0 0 6 0
      = Some s
      /\ j <= 5 /\ m <= 2
      /\ map shape (log s)
         = full_rounds ["a"; "b%"]%string 0 j ++ map inl (firstn m ["a"; "b%"]%string)
      /\ (forall t, t < j -> (wait_at t < 6 * time_Second)%Z)).
Proof.
  apply (@fetch_trace Down.collaborators [] [] ["a"; "b%"]%string [] false false
           0 0 0 5 6).
  - discriminate.
  - discriminate.
  - lia.
Defined.

(** With no location to try, or with a ceiling of at most one second,
    both fetches return at once, without a read and without an error: the
    range fetch reports zero bytes and leaves the buffer as it is, the
    whole-chunk fetch leaves the writer as it is.  So a lookup that
    returns an empty list of locations and no error makes the fetch
    succeed with nothing fetched. *)
Theorem fetch_without_attempt `{Collaborators}
        (buffer writer : list byte) (urlStrings : list string)
        (cipherKey : list byte) (isGzipped isFullChunk : bool) (offset size : Z)
        (fuel : nat) (w : World) :
  urlStrings = [] \/ (RetryWaitTime <= time_Second)%Z ->
  retriedFetchChunkData buffer urlStrings cipherKey isGzipped isFullChunk offset
                        (S fuel) w
  = Some (w, buffer, (0%Z, None))
  /\ retriedStreamFetchChunkData writer urlStrings cipherKey isGzipped isFullChunk
                                 offset size (S fuel) w
     = Some (w, writer, None)
  /\ (forall lookupFileIdFn fileId w1,
        lookupFileIdFn fileId w = (w1, (urlStrings, None)) ->
        fetchChunkRange buffer lookupFileIdFn fileId cipherKey isGzipped offset
                        (S fuel) w
        = Some (w1, buffer, (0%Z, None))
        /\ fetchWholeChunk writer lookupFileIdFn fileId cipherKey isGzipped
                           (S fuel) w
           = Some (w1, writer, None)).
Proof.
  intros Hnone.
  assert (Hrounds : forall (P : Type) (attempt : string -> Session P -> Session P)
                           (w0 : World) (p : P),
             retry_rounds attempt (S fuel) time_Second urlStrings
                          (mkSession w0 p false None [])
             = Some (mkSession w0 p false None [])).
  { intros P attempt w0 p. rewrite retry_rounds_S.
    destruct Hnone as [->|Hceiling].
    - cbn. now destruct (time_Second <? RetryWaitTime)%Z.
    - destruct (Z.ltb_spec time_Second RetryWaitTime); [lia | reflexivity]. }
  assert (Hrange : forall w0 isFull,
             retriedFetchChunkData buffer urlStrings cipherKey isGzipped isFull
                                   offset (S fuel) w0
             = Some (w0, buffer, (0%Z, None))).
  { intros w0 isFull. unfold retriedFetchChunkData, range_session.
    now rewrite Hrounds. }
  assert (Hstream : forall w0 isFull off sz,
             retriedStreamFetchChunkData writer urlStrings cipherKey isGzipped
                                         isFull off sz (S fuel) w0
             = Some (w0, writer, None)).
  { intros w0 isFull off sz. unfold retriedStreamFetchChunkData, stream_session.
    now rewrite Hrounds. }
  split; [apply Hrange|]. split; [apply Hstream|].
  intros lookupFileIdFn fileId w1 Hlookup.
  unfold fetchChunkRange, fetchWholeChunk. rewrite Hlookup.
  split; [apply Hrange | apply Hstream].
Qed.

(** A lookup that knows no location for the chunk. *)
Lemma fetch_without_attempt_witness :
  @retriedFetchChunkData Store.collaborators [Byte.x07] [] [] false false 0 1 tt
  = Some (tt, [Byte.x07], (0%Z, None))
  /\ @fetchWholeChunk Store.collaborators [] (fun _ w => (w, ([], None)))
                      "m1"%string [] false 1 tt
     = Some (tt, [], None).
Proof.
  destruct (@fetch_without_attempt Store.collaborators [Byte.x07] [] [] [] false
              false 0 0 0 tt (or_introl eq_refl)) as (Hrange & _ & Hlookup).
  split; [exact Hrange|].
  exact (proj2 (Hlookup (fun _ w => (w, ([], None))) "m1"%string tt eq_refl)).
Defined.

(** For any transport, what a whole-chunk fetch has written is what the
    writer held before, followed by as many bytes as the longest delivery
    of an attempt: nothing written is written again or taken back, and
    the count of bytes written is that length. *)
Theorem stream_writes_longest_delivery `{Collaborators}
        (writer : list byte) (urlStrings : list string)
        (cipherKey : list byte) (isGzipped isFullChunk : bool) (offset size : Z)
        (fuel : nat) (w : World) (s : Session (list byte * Z)) :
  stream_session writer urlStrings cipherKey isGzipped isFullChunk offset size
                 fuel w = Some s ->
  exists written,
    fst (payload s) = writer ++ written
    /\ snd (payload s) = Z.of_nat (length written)
    /\ length written = longest_delivery (log s).
Proof.
  unfold stream_session. intros Hs.
  eapply (retry_rounds_invariant _ _
            (fun s => exists written,
                 fst (payload s) = writer ++ written
                 /\ snd (payload s) = Z.of_nat (length written)
                 /\ length written = longest_delivery (log s)));
    [| | |exact Hs].
  - intros u s0 (written & Hsink & Htw & Hlen). unfold stream_attempt.
    destruct (payload s0) as [sink totalWritten]. cbn [fst snd] in Hsink, Htw.
    subst sink totalWritten.
    destruct (ReadUrlAsStream _ _ _ _ _ _ _) as [w1 r].
    rewrite stream_deliveries by lia. rewrite Z.sub_0_r, Nat2Z.id.
    exists (written ++ skipn (length written) (concat (deliveries r))).
    cbn [payload log fst snd]. rewrite longest_delivery_read, <- Hlen.
    rewrite length_app, length_skipn, app_assoc.
    split; [reflexivity|]. split; lia.
  - intros d s0 (written & Hsink & Htw & Hlen). exists written.
    unfold sleep. cbn [payload log]. rewrite longest_delivery_sleep. auto.
  - exists []. cbn. rewrite app_nil_r. auto.
Qed.

Lemma stream_writes_longest_delivery_witness :
  exists s written,
    @stream_session Flaky.collaborators [Byte.xff] ["a"%string] [] false true 0 0 2 0
    = Some s
    /\ fst (payload s) = [Byte.xff] ++ written
    /\ snd (payload s) = Z.of_nat (length written)
    /\ length written = longest_delivery (log s)
    /\ longest_delivery (log s) = 100.
Proof.
  eexists.
  match goal with
  | |- exists written, ?run = Some ?s /\ _ =>
      destruct (@stream_writes_longest_delivery Flaky.collaborators [Byte.xff]
                  ["a"%string] [] false true 0 0 2 0 s eq_refl)
        as (written & Hsink & Htw & Hlen)
  end.
  exists written. split; [reflexivity|]. repeat split; try assumption.
Defined.

(** ** The time slept *)

Lemma sleeps_slept (l : list Event) : sleeps l = slept (map shape l).
Proof.
  induction l as [|[u r|d] l IH]; cbn; [reflexivity | exact IH | now rewrite IH].
Qed.

Lemma slept_app (l1 l2 : list (string + Z)) : slept (l1 ++ l2) = slept l1 ++ slept l2.
Proof.
  induction l1 as [|[u|d] l1 IH]; cbn; [reflexivity | exact IH | now rewrite IH].
Qed.

Lemma slept_reads (locations : list string) : slept (map inl locations) = [].
Proof. induction locations as [|u l IH]; cbn; auto. Qed.

Lemma slept_full_rounds (locations : list string) (j : nat) :
  forall i, slept (full_rounds locations i j) = map wait_at (seq i j).
Proof.
  unfold full_rounds. induction j as [|j IH]; intros i; cbn [seq map concat].
  - reflexivity.
  - rewrite !slept_app, slept_reads, IH. reflexivity.
Qed.

(** The waits grow at least quadratically. *)
Lemma wait_at_quadratic (t : nat) :
  (1000000000 + 100000000 * Z.of_nat t * Z.of_nat t <= wait_at t)%Z.
Proof.
  induction t as [|t IH]; [unfold wait_at, time_Second; cbn; lia|].
  rewrite wait_at_succ.
  pose proof (Z.div_mod (wait_at t) 2 ltac:(lia)) as Hdm.
  pose proof (Z.mod_pos_bound (wait_at t) 2 ltac:(lia)) as Hmod.
  rewrite Nat2Z.inj_succ. nia.
Qed.

(** The waits of rounds [i] to [i + j - 1] add up to at most twice what
    the wait has grown by, and one nanosecond per round. *)
Lemma waits_sum (j : nat) :
  forall i,
    (fold_right Z.add 0 (map wait_at (seq i j))
     <= 2 * (wait_at (i + j) - wait_at i) + Z.of_nat j)%Z.
Proof.
  induction j as [|j IH]; intros i; cbn [seq map fold_right].
  - rewrite Nat.add_0_r. lia.
  - specialize (IH (S i)). replace (S i + j) with (i + S j) in IH by lia.
    rewrite wait_at_succ in IH.
    pose proof (Z.div_mod (wait_at i) 2 ltac:(lia)) as Hdm.
    pose proof (Z.mod_pos_bound (wait_at i) 2 ltac:(lia)) as Hmod.
    rewrite Nat2Z.inj_succ. lia.
Qed.

Lemma waits_sum_nonneg (j : nat) :
  forall i, (0 <= fold_right Z.add 0 (map wait_at (seq i j)))%Z.
Proof.
  induction j as [|j IH]; intros i; cbn [seq map fold_right]; [lia|].
  pose proof (wait_at_lower i). unfold time_Second in *.
  specialize (IH (S i)). lia.
Qed.

(** For any transport and a ceiling that the [int64] wait reaches without
    wrapping, a fetch sleeps less than three times the ceiling in all: the
    waits slept are those of the rounds [0, 1, ...] in order, each below
    the ceiling, and their sum is at most [3 * RetryWaitTime]. *)
Theorem fetch_sleeps_at_most `{Collaborators}
        (buffer writer : list byte) (urlStrings : list string)
        (cipherKey : list byte) (isGzipped isFullChunk : bool) (offset size : Z)
        (fuel : nat) (w : World) :
  (0 <= RetryWaitTime <= 2 ^ 62)%Z ->
  (forall s,
      range_session buffer urlStrings cipherKey isGzipped isFullChunk offset fuel w
      = Some s ->
      (exists j, sleeps (log s) = map wait_at (seq 0 j)
                 /\ forall t, t < j -> (wait_at t < RetryWaitTime)%Z)
      /\ (0 <= total_sleep (log s) <= 3 * RetryWaitTime)%Z)
  /\ (forall s,
      stream_session writer urlStrings cipherKey isGzipped isFullChunk offset size
                     fuel w = Some s ->
      (exists j, sleeps (log s) = map wait_at (seq 0 j)
                 /\ forall t, t < j -> (wait_at t < RetryWaitTime)%Z)
      /\ (0 <= total_sleep (log s) <= 3 * RetryWaitTime)%Z).
Proof.
  intros [Hpos Hceiling].
  set (k := Z.to_nat RetryWaitTime).
  assert (Hk : (RetryWaitTime <= wait_at k)%Z).
  { pose proof (wait_at_quadratic k). unfold k in *. nia. }
  assert (Hsum : forall (l : list Event) (j : nat),
             sleeps l = map wait_at (seq 0 j) ->
             (forall t, t < j -> (wait_at t < RetryWaitTime)%Z) ->
             (0 <= total_sleep l <= 3 * RetryWaitTime)%Z).
  { intros l j Hl Hbelow. unfold total_sleep. rewrite Hl.
    pose proof (waits_sum j 0) as Hw. cbn [Nat.add] in Hw.
    change (wait_at 0) with time_Second in Hw. unfold time_Second in Hw.
    destruct j as [|j].
    - cbn [seq map fold_right]. lia.
    - assert (Hlast : (wait_at j < RetryWaitTime)%Z) by (apply Hbelow; lia).
      pose proof (wait_at_quadratic j) as Hq.
      pose proof (wait_at_lower j) as Hlow. unfold time_Second in Hlow.
      rewrite wait_at_succ in Hw.
      pose proof (Z.div_mod (wait_at j) 2 ltac:(lia)) as Hdm.
      pose proof (Z.mod_pos_bound (wait_at j) 2 ltac:(lia)) as Hmod.
      assert (Hj : (Z.of_nat j <= 1000000)%Z).
      { change (2 ^ 62)%Z with 4611686018427387904%Z in Hceiling. nia. }
      pose proof (waits_sum_nonneg (S j) 0) as Hnonneg.
      rewrite Nat2Z.inj_succ in Hw. lia. }
  assert (Hshape : forall (l : list Event) (locations : list string) (j m : nat),
             map shape l = full_rounds locations 0 j
                             ++ map inl (firstn m locations) ->
             sleeps l = map wait_at (seq 0 j)).
  { intros l locations j m Hl.
    rewrite sleeps_slept, Hl, slept_app, slept_full_rounds, slept_reads.
    apply app_nil_r. }
  destruct (sessions_trace buffer writer urlStrings cipherKey isGzipped isFullChunk
              offset size w k (Nat.max fuel (S k)) Hceiling Hk ltac:(lia))
    as [(s1 & j1 & m1 & Hrun1 & _ & _ & Hlog1 & Hbelow1)
        (s2 & j2 & m2 & Hrun2 & _ & _ & Hlog2 & Hbelow2)].
  split; intros s Hs.
  - unfold range_session in *.
    eapply retry_rounds_mono with (fuel' := Nat.max fuel (S k)) in Hs; [|lia].
    rewrite Hrun1 in Hs. inversion Hs; subst s1.
    apply Hshape in Hlog1. split; [eauto | eapply Hsum; eauto].
  - unfold stream_session in *.
    eapply retry_rounds_mono with (fuel' := Nat.max fuel (S k)) in Hs; [|lia].
    rewrite Hrun2 in Hs. inversion Hs; subst s2.
    apply Hshape in Hlog2. split; [eauto | eapply Hsum; eauto].
Qed.

(** Two locations that are down and the ceiling of six seconds: five
    rounds, 13.1875 seconds slept. *)
Lemma fetch_sleeps_at_most_witness :
  exists s,
    @range_session Down.collaborators [] ["a"; "b"]%string [] false false 0 6 0
    = Some s
    /\ (0 <= total_sleep (log s) <= 3 * (6 * time_Second))%Z
    /\ total_sleep (log s) = 13187500000%Z.
Proof.
  eexists. split; [reflexivity|].
  match goal with
  | |- (0 <= total_sleep (log ?s) <= _)%Z /\ _ =>
      destruct (@fetch_sleeps_at_most Down.collaborators [] [] ["a"; "b"]%string []
                  false false 0 0 6 0) as [Hrange _];
        [split; discriminate|];
      destruct (Hrange s eq_refl) as [_ Hbound]
  end.
  split; [exact Hbound | reflexivity].
Defined.

(** ** Manifest builder *)

Lemma HasChunkManifest_iff_no_manifest (chunks : list FileChunk) :
  HasChunkManifest chunks = false <-> fst (SeparateManifestChunks chunks) = [].
Proof.
  unfold SeparateManifestChunks. rewrite separate_from_filter. cbn [fst app].
  induction chunks as [|c chunks IH]; cbn [HasChunkManifest filter].
  - split; reflexivity.
  - destruct (IsChunkManifest c); [split; discriminate | exact IH].
Qed.

Lemma filter_all {A : Type} (f : A -> bool) (l : list A) :
  Forall (fun x => f x = true) l -> filter f l = l.
Proof.
  induction 1 as [|x l Hx _ IH]; cbn; [reflexivity|]. now rewrite Hx, IH.
Qed.

Lemma filter_none {A : Type} (f : A -> bool) (l : list A) :
  Forall (fun x => f x = false) l -> filter f l = [].
Proof.
  induction 1 as [|x l Hx _ IH]; cbn; [reflexivity|]. now rewrite Hx.
Qed.

Lemma Forall_filter_true {A : Type} (f : A -> bool) (l : list A) :
  Forall (fun x => f x = true) (filter f l).
Proof.
  induction l as [|x l IH]; cbn; [constructor|].
  destruct (f x) eqn:Hx; [constructor; assumption | assumption].
Qed.

Lemma Forall_skipn {A : Type} (Q : A -> Prop) (n : nat) (l : list A) :
  Forall Q l -> Forall Q (skipn n l).
Proof.
  intros Hl. rewrite <- (firstn_skipn n l) in Hl.
  now apply Forall_app in Hl.
Qed.

(** What a successful [MaybeManifestize] returns, in the terms of the
    classifier. *)
Lemma MaybeManifestize_output `{Collaborators} saveFunc inputChunks fuel w w' out :
  let manifests := filter IsChunkManifest inputChunks in
  let leaves := filter (fun c => negb (IsChunkManifest c)) inputChunks in
  let k := length leaves / ManifestBatch in
  k < fuel ->
  MaybeManifestize saveFunc inputChunks fuel w = Some (w', (out, None)) ->
  exists merged,
    out = manifests ++ merged ++ skipn (k * ManifestBatch) leaves
    /\ length merged = k
    /\ filter IsChunkManifest out = manifests ++ merged
    /\ filter (fun c => negb (IsChunkManifest c)) out
       = skipn (k * ManifestBatch) leaves
    /\ length (skipn (k * ManifestBatch) leaves) < ManifestBatch.
Proof.
  intros manifests leaves k Hfuel Hrun.
  pose proof ManifestBatch_positive as Hpos.
  rewrite (MaybeManifestize_outcome saveFunc inputChunks fuel w Hfuel) in Hrun.
  fold leaves manifests k in Hrun. unfold loop_outcome in Hrun.
  destruct (merge_each saveFunc (batches_of k ManifestBatch leaves) w)
    as [[[w2 merged] handed] [e|]] eqn:Hm; [discriminate|].
  inversion Hrun; subst w2 out. clear Hrun.
  destruct (merge_each_success _ _ _ _ _ _ Hm) as [Hlen Hman].
  rewrite batches_of_length in Hlen.
  assert (Hleaves : Forall (fun c => negb (IsChunkManifest c) = true)
                           (skipn (k * ManifestBatch) leaves)).
  { apply Forall_skipn. apply Forall_filter_true. }
  assert (Hleaves' : Forall (fun c => IsChunkManifest c = false)
                            (skipn (k * ManifestBatch) leaves)).
  { eapply Forall_impl; [|exact Hleaves]. cbv beta. intros c Hc.
    destruct (IsChunkManifest c); [discriminate Hc | reflexivity]. }
  assert (Hmanifests : Forall (fun c => IsChunkManifest c = true) manifests)
    by apply Forall_filter_true.
  assert (Hneg : forall l, Forall (fun c => IsChunkManifest c = true) l ->
                           Forall (fun c => negb (IsChunkManifest c) = false) l).
  { intros l Hl. eapply Forall_impl; [|exact Hl]. cbv beta. intros c Hc.
    now rewrite Hc. }
  exists merged. split; [reflexivity|]. split; [exact Hlen|]. split; [|split].
  - rewrite !filter_app, (filter_all _ _ Hmanifests), (filter_all _ _ Hman),
      (filter_none _ _ Hleaves'), app_nil_r. reflexivity.
  - rewrite !filter_app, (filter_none _ _ (Hneg _ Hmanifests)),
      (filter_none _ _ (Hneg _ Hman)), (filter_all _ _ Hleaves). reflexivity.
  - rewrite length_skipn.
    assert (length leaves < S k * ManifestBatch).
    { unfold k. rewrite Nat.mul_comm. apply Nat.mul_succ_div_gt. lia. }
    lia.
Qed.

(** Fewer leaves than a batch: nothing to merge. *)
Lemma MaybeManifestize_small `{Collaborators}
        (saveFunc : SaveDataAsChunkFunctionType) (inputChunks : list FileChunk)
        (fuel : nat) (w : World) :
  length (filter (fun c => negb (IsChunkManifest c)) inputChunks) < ManifestBatch ->
  MaybeManifestize saveFunc inputChunks (S fuel) w
  = Some (w, (filter IsChunkManifest inputChunks
                ++ filter (fun c => negb (IsChunkManifest c)) inputChunks, None)).
Proof.
  intros Hsmall.
  rewrite MaybeManifestize_outcome
    by (cbv zeta; rewrite Nat.div_small by exact Hsmall; lia).
  rewrite Nat.div_small by exact Hsmall.
  unfold loop_outcome. cbn [batches_of merge_each Nat.mul skipn app]. reflexivity.
Qed.

(** Below the threshold nothing is merged and nothing is stored: with
    fewer than [ManifestBatch] leaf chunks, [MaybeManifestize] returns,
    without error and in the world it was called in, the manifest chunks
    of the input followed by its leaf chunks, each group in input order.
    The output is the input rearranged, not the input: a manifest that
    came after a leaf comes before it. *)
Theorem MaybeManifestize_below_threshold `{Collaborators}
        (saveFunc : SaveDataAsChunkFunctionType) (inputChunks : list FileChunk)
        (fuel : nat) (w : World) :
  length (filter (fun c => negb (IsChunkManifest c)) inputChunks) < ManifestBatch ->
  MaybeManifestize saveFunc inputChunks (S fuel) w
  = Some (w, (filter IsChunkManifest inputChunks
                ++ filter (fun c => negb (IsChunkManifest c)) inputChunks, None)).
Proof. exact (MaybeManifestize_small saveFunc inputChunks fuel w). Qed.

(** A leaf, a manifest, a leaf: the manifest comes out first. *)
Lemma MaybeManifestize_below_threshold_witness :
  @MaybeManifestize Store.collaborators Store.save_fails
                    [Store.l1; Store.m1; Store.l2] 1 tt
  = Some (tt, ([Store.m1; Store.l1; Store.l2], None)).
Proof.
  apply (@MaybeManifestize_below_threshold Store.collaborators Store.save_fails
           [Store.l1; Store.m1; Store.l2] 0 tt).
  apply Nat.ltb_lt. vm_compute. reflexivity.
Defined.

(** The classifier on the builder's output: after a successful
    [MaybeManifestize], [SeparateManifestChunks] gives back the manifest
    chunks of the input followed by the new ones, and the leftover leaves;
    and [HasChunkManifest] is true as soon as the input had a full batch
    of leaves. *)
Theorem MaybeManifestize_then_classify `{Collaborators}
        (saveFunc : SaveDataAsChunkFunctionType) (inputChunks : list FileChunk)
        (fuel : nat) (w w' : World) (out : list FileChunk) :
  let manifests := filter IsChunkManifest inputChunks in
  let leaves := filter (fun c => negb (IsChunkManifest c)) inputChunks in
  let k := length leaves / ManifestBatch in
  k < fuel ->
  MaybeManifestize saveFunc inputChunks fuel w = Some (w', (out, None)) ->
  exists merged,
    length merged = k
    /\ SeparateManifestChunks out
       = (manifests ++ merged, skipn (k * ManifestBatch) leaves)
    /\ out = fst (SeparateManifestChunks out) ++ snd (SeparateManifestChunks out)
    /\ (ManifestBatch <= length leaves -> HasChunkManifest out = true).
Proof.
  intros manifests leaves k Hfuel Hrun.
  destruct (MaybeManifestize_output saveFunc inputChunks fuel w w' out Hfuel Hrun)
    as (merged & Hout & Hlen & Hm & Hl & _).
  fold manifests leaves k in Hout, Hlen, Hm, Hl.
  exists merged. split; [exact Hlen|].
  assert (Hsep : SeparateManifestChunks out
                 = (manifests ++ merged, skipn (k * ManifestBatch) leaves)).
  { unfold SeparateManifestChunks. rewrite separate_from_filter. cbn [app].
    now rewrite Hm, Hl. }
  split; [exact Hsep|]. split.
  { rewrite Hsep. cbn [fst snd]. now rewrite <- app_assoc. }
  intros Hfull.
  destruct (HasChunkManifest out) eqn:Hhas; [reflexivity|].
  pose proof (HasChunkManifest_iff_no_manifest out) as Hiff.
  rewrite Hiff, Hsep in Hhas. cbn [fst] in Hhas.
  apply app_eq_nil in Hhas as [_ ->]. cbn [length] in Hlen.
  pose proof ManifestBatch_positive as Hpos.
  assert (Hk : 0 < k) by (unfold k; apply Nat.div_str_pos; lia).
  rewrite <- Hlen in Hk. inversion Hk.
Qed.

(** One manifest chunk and one full batch of leaves, stored without
    failure. *)
Lemma Store_one_batch :
  length (filter (fun c => negb (IsChunkManifest c))
                 (Store.m1 :: Store.leaves ManifestBatch)) / ManifestBatch < 2
  /\ ManifestBatch
     <= length (filter (fun c => negb (IsChunkManifest c))
                       (Store.m1 :: Store.leaves ManifestBatch))
  /\ exists out,
      @MaybeManifestize Store.collaborators Store.save
                        (Store.m1 :: Store.leaves ManifestBatch) 2 tt
      = Some (tt, (out, None)).
Proof.
  destruct (Store_leaves_leaves ManifestBatch) as (Hleaves & _ & Hlength).
  pose proof ManifestBatch_positive as Hpos.
  assert (Hfuel : length (filter (fun c => negb (IsChunkManifest c))
                                 (Store.m1 :: Store.leaves ManifestBatch))
                  / ManifestBatch < 2).
  { rewrite filter_skip, Hleaves, Hlength by reflexivity.
    rewrite Nat.div_same by lia. lia. }
  split; [exact Hfuel|]. split.
  { rewrite filter_skip, Hleaves, Hlength by reflexivity. apply Nat.le_refl. }
  rewrite (@MaybeManifestize_outcome Store.collaborators Store.save _ 2 tt Hfuel).
  unfold loop_outcome.
  match goal with
  | |- context [merge_each Store.save ?bs tt] =>
      pose proof (@merge_each_succeeds Store.collaborators Store.save
                    ltac:(reflexivity) ltac:(intros; eexists; reflexivity) bs tt)
        as Hnone;
      destruct (merge_each Store.save bs tt) as [[[[] merged] handed] e]
  end.
  cbn [snd] in Hnone. subst e. eexists. reflexivity.
Qed.

Lemma MaybeManifestize_then_classify_witness :
  exists out merged,
    @MaybeManifestize Store.collaborators Store.save
                      (Store.m1 :: Store.leaves ManifestBatch) 2 tt
    = Some (tt, (out, None))
    /\ out = fst (SeparateManifestChunks out) ++ snd (SeparateManifestChunks out)
    /\ fst (SeparateManifestChunks out)
       = filter IsChunkManifest (Store.m1 :: Store.leaves ManifestBatch) ++ merged
    /\ HasChunkManifest out = true.
Proof.
  destruct Store_one_batch as (Hfuel & Hfull & out & Hrun).
  destruct (@MaybeManifestize_then_classify Store.collaborators Store.save
              (Store.m1 :: Store.leaves ManifestBatch) 2 tt tt out Hfuel Hrun)
    as (merged & _ & Hsep & Hout & Hhas).
  exists out, merged. split; [exact Hrun|]. split; [exact Hout|]. split.
  - rewrite Hsep. reflexivity.
  - exact (Hhas Hfull).
Defined.

(** Compacting what a successful [MaybeManifestize] returned changes
    nothing: a second call, with any store and in any world, returns the
    same chunk list without error and leaves the world as it is. *)
Theorem MaybeManifestize_twice `{Collaborators}
        (saveFunc saveFunc' : SaveDataAsChunkFunctionType)
        (inputChunks : list FileChunk) (fuel fuel' : nat) (w w' w2 : World)
        (out : list FileChunk) :
  length (filter (fun c => negb (IsChunkManifest c)) inputChunks) / ManifestBatch
  < fuel ->
  MaybeManifestize saveFunc inputChunks fuel w = Some (w', (out, None)) ->
  MaybeManifestize saveFunc' out (S fuel') w2 = Some (w2, (out, None)).
Proof.
  intros Hfuel Hrun.
  destruct (MaybeManifestize_output saveFunc inputChunks fuel w w' out Hfuel Hrun)
    as (merged & Hout & _ & Hm & Hl & Hsmall).
  rewrite MaybeManifestize_small by (rewrite Hl; exact Hsmall).
  rewrite Hm, Hl, <- app_assoc, <- Hout. reflexivity.
Qed.

Lemma MaybeManifestize_twice_witness :
  exists out,
    @MaybeManifestize Store.collaborators Store.save
                      (Store.m1 :: Store.leaves ManifestBatch) 2 tt
    = Some (tt, (out, None))
    /\ @MaybeManifestize Store.collaborators Store.save_fails out 1 tt
       = Some (tt, (out, None)).
Proof.
  destruct Store_one_batch as (Hfuel & _ & out & Hrun).
  exists out. split; [exact Hrun|].
  exact (@MaybeManifestize_twice Store.collaborators Store.save Store.save_fails
           (Store.m1 :: Store.leaves ManifestBatch) 2 0 tt tt tt out Hfuel Hrun).
Defined.

(** When [mergeIntoManifest] fails.  It returns an error exactly when
    serializing the batch fails or the store fails.  In the first case
    the store is not called (the world is as before) and the error is
    wrapped as a serialization error; in the second the store's error is
    returned as it is.  In both, the chunks of the batch have gone
    through the pre-serialization hook. *)
Theorem mergeIntoManifest_errors `{Collaborators}
        (saveFunc : SaveDataAsChunkFunctionType) (dataChunks : list FileChunk)
        (w w' : World) (batch : list FileChunk) (e : error) :
  mergeIntoManifest saveFunc dataChunks w = (w', batch, inl e)
  <-> batch = map BeforeEntrySerialization dataChunks
      /\ ((exists cause,
              snd (Marshal batch) = Some cause
              /\ w' = w /\ e = ("serializing manifest: " ++ cause)%string)
          \/ (snd (Marshal batch) = None
              /\ saveFunc (fst (Marshal batch)) ""%string 0%Z w = (w', inl e))).
Proof.
  unfold mergeIntoManifest.
  destruct (Marshal (map BeforeEntrySerialization dataChunks)) as [data serErr] eqn:Hm.
  split.
  - destruct serErr as [cause|].
    + intros [= <- <- <-]. split; [reflexivity|]. left. exists cause.
      rewrite Hm. auto.
    + destruct (fold_left _ _ _) as [mn mx].
      destruct (saveFunc data ""%string 0%Z w) as [w1 [e1|c]] eqn:Hs; [|discriminate].
      intros [= <- <- <-]. split; [reflexivity|]. right.
      rewrite Hm. cbn [fst snd]. auto.
  - intros [-> [(cause & Hc & -> & ->)|[Hc Hs]]]; rewrite Hm in *; cbn [fst snd] in *.
    + subst serErr. reflexivity.
    + subst serErr. destruct (fold_left _ _ _) as [mn mx]. now rewrite Hs.
Qed.

(** A full store. *)
Lemma mergeIntoManifest_errors_witness :
  @mergeIntoManifest Store.collaborators Store.save_fails [Store.l1; Store.l2] tt
  = (tt, [Store.l1; Store.l2], inl "no free volumes"%string).
Proof.
  apply (@mergeIntoManifest_errors Store.collaborators Store.save_fails
           [Store.l1; Store.l2] tt tt [Store.l1; Store.l2]
           "no free volumes"%string).
  split; [reflexivity|]. right. split; reflexivity.
Defined.

(** The manifest chunk stands for its children in the range test.  When
    [mergeIntoManifest] succeeds on a batch that is not empty and whose
    chunks lie in the [int64] coordinate space, the chunk it returns lies
    in that space too, and it passes the range test of
    [ResolveChunkManifest] for every range for which one of its children
    passes it: a manifest is never skipped while a chunk it holds is in
    range. *)
Theorem manifest_in_range_of_children `{Collaborators}
        (saveFunc : SaveDataAsChunkFunctionType) (dataChunks : list FileChunk)
        (w w' : World) (children : list FileChunk) (m : FileChunk) :
  dataChunks <> [] ->
  mergeIntoManifest saveFunc dataChunks w = (w', children, inr m) ->
  Forall chunk_fits children ->
  chunk_fits m
  /\ forall startOffset stopOffset c,
       In c children ->
       range_test startOffset stopOffset c = true ->
       range_test startOffset stopOffset m = true
       /\ out_of_range m startOffset stopOffset = false.
Proof.
  intros Hne Hrun Hfits.
  pose proof (mergeIntoManifest_batch saveFunc dataChunks w) as Hb.
  rewrite Hrun in Hb. cbn [fst snd] in Hb. subst children.
  unfold mergeIntoManifest in Hrun.
  destruct (Marshal (map BeforeEntrySerialization dataChunks)) as [data [e|]];
    [discriminate|].
  destruct (fold_left min_max_step _ _) as [mn mx] eqn:Hfold.
  destruct (saveFunc data ""%string 0%Z w) as [w1 [e|blob]]; [discriminate|].
  inversion Hrun; subst w1 m. clear Hrun.
  destruct (min_max_bounds (map BeforeEntrySerialization dataChunks) mn mx)
    as (Hlo & Hlo_in & Hhi & Hhi_in & Hrange); try assumption.
  { destruct dataChunks; [congruence | discriminate]. }
  assert (Hm : chunk_fits (mkChunk (FileId blob) mn
                                   (Int64.to_uint64 (Int64.sub mx mn))
                                   (CipherKey blob) (IsCompressed blob) true)).
  { unfold chunk_fits. cbn [Offset Size]. rewrite to_uint64_sub by exact Hrange.
    apply Exists_exists in Hlo_in as (c1 & Hc1 & Ho1).
    apply Exists_exists in Hhi_in as (c2 & Hc2 & Ho2).
    rewrite Forall_forall in Hfits.
    destruct (Hfits c1 Hc1) as (Hr1 & _ & _). destruct (Hfits c2 Hc2) as (_ & _ & He2).
    unfold Int64.in_range in *. lia. }
  split; [exact Hm|].
  intros startOffset stopOffset c Hc Htest.
  assert (Hin : range_test startOffset stopOffset
                  (mkChunk (FileId blob) mn (Int64.to_uint64 (Int64.sub mx mn))
                           (CipherKey blob) (IsCompressed blob) true) = true).
  { rewrite Forall_forall in Hfits, Hlo, Hhi.
    unfold range_test in *. rewrite (chunk_end_fits _ Hm).
    rewrite (chunk_end_fits c (Hfits c Hc)) in Htest.
    cbn [Offset Size]. rewrite to_uint64_sub by exact Hrange.
    apply Z.ltb_lt in Htest. apply Z.ltb_lt.
    specialize (Hlo c Hc). specialize (Hhi c Hc). cbv beta in Hlo, Hhi. lia. }
  split; [exact Hin|].
  rewrite out_of_range_range_test, Hin. reflexivity.
Qed.

(** Three leaves, and the range [[120,130)], which only ["l3"] meets. *)
Lemma manifest_in_range_of_children_witness :
  exists m,
    @mergeIntoManifest Store.collaborators Store.save
                       [Store.l2; Store.l3; Store.l1] tt
    = (tt, [Store.l2; Store.l3; Store.l1], inr m)
    /\ chunk_fits m
    /\ range_test 120 130 m = true.
Proof.
  eexists. split; [reflexivity|].
  match goal with
  | |- chunk_fits ?m /\ _ =>
      destruct (@manifest_in_range_of_children Store.collaborators Store.save
                  [Store.l2; Store.l3; Store.l1] tt tt
                  [Store.l2; Store.l3; Store.l1] m)
        as (Hfits & Hrange)
  end.
  - discriminate.
  - reflexivity.
  - repeat constructor; vm_compute; try discriminate; reflexivity.
  - split; [exact Hfits|].
    exact (proj1 (Hrange 120%Z 130%Z Store.l3 (or_intror (or_introl eq_refl)) eq_refl)).
Defined.

(** ** Limits *)

Lemma resolve_loop_never_returns `{Collaborators} subDataChunks subManifestChunks
      recur decode original startOffset stopOffset (m : FileChunk)
      (children : list FileChunk) :
  out_of_range m startOffset stopOffset = false ->
  IsChunkManifest m = true ->
  (forall w r, decode m w = Some r -> exists w1, r = (w1, (children, None))) ->
  (forall w, recur children w = None) ->
  forall pre post dataChunks manifestChunks w,
    Forall (fun c => IsChunkManifest c = true ->
                     out_of_range c startOffset stopOffset = true) pre ->
    resolve_loop subDataChunks subManifestChunks recur decode original
                 startOffset stopOffset (pre ++ m :: post)
                 dataChunks manifestChunks w
    = None.
Proof.
  intros Hin Hm Hdecode Hrecur.
  induction pre as [|c pre IH]; intros post d ms w Hpre; cbn [app resolve_loop].
  - rewrite Hin, Hm. cbn [negb].
    destruct (decode m w) as [r|] eqn:Hd; [|reflexivity].
    destruct (Hdecode w r Hd) as [w1 ->]. now rewrite Hrecur.
  - inversion Hpre as [|? ? Hc Hpre']; subst.
    destruct (out_of_range c startOffset stopOffset) eqn:Hout; [now apply IH|].
    destruct (IsChunkManifest c) eqn:Hcm; cbn [negb]; [|now apply IH].
    specialize (Hc eq_refl). congruence.
Qed.

(** There is no guard against a manifest that holds itself.  If a
    manifest chunk passes the range test and every decode of it that
    returns gives a list in which it comes before any other manifest in
    range, then [ResolveChunkManifest] on a list in which it is the first
    manifest in range does not return: no amount of fuel gives a result. *)
Theorem ResolveChunkManifest_cycle `{Collaborators}
        (lookupFileIdFn : LookupFileIdFunctionType)
        (subDataChunks subManifestChunks : list FileChunk)
        (startOffset stopOffset : Z) (m : FileChunk)
        (before after : list FileChunk) :
  out_of_range m startOffset stopOffset = false ->
  IsChunkManifest m = true ->
  Forall (fun c => IsChunkManifest c = true ->
                   out_of_range c startOffset stopOffset = true) before ->
  (forall fuel w r,
      ResolveOneChunkManifest lookupFileIdFn m fuel w = Some r ->
      exists w1, r = (w1, (before ++ m :: after, None))) ->
  forall fuel pre post w,
    Forall (fun c => IsChunkManifest c = true ->
                     out_of_range c startOffset stopOffset = true) pre ->
    ResolveChunkManifest lookupFileIdFn subDataChunks subManifestChunks
                         fuel (pre ++ m :: post) startOffset stopOffset w
    = None.
Proof.
  intros Hin Hm Hbefore Hdecode.
  induction fuel as [|fuel IH]; intros pre post w Hpre; [reflexivity|].
  cbn [ResolveChunkManifest].
  apply resolve_loop_never_returns with (children := before ++ m :: after);
    try assumption.
  - intros w0 r. apply Hdecode.
  - intros w0. now apply IH.
Qed.

(** The manifest ["loop"] decodes to the list that holds only itself. *)
Lemma ResolveChunkManifest_cycle_witness :
  @ResolveOneChunkManifest Cyclic.collaborators Cyclic.lookup Cyclic.loop 1 tt
  = Some (tt, ([Cyclic.loop], None))
  /\ forall fuel,
      @ResolveChunkManifest Cyclic.collaborators Cyclic.lookup [] [] fuel
                            [Store.l1; Cyclic.loop] 0 100 tt
      = None.
Proof.
  split; [reflexivity|]. intros fuel.
  apply (@ResolveChunkManifest_cycle Cyclic.collaborators Cyclic.lookup [] []
           0 100 Cyclic.loop [] [] eq_refl eq_refl (Forall_nil _)) with
    (pre := [Store.l1]) (post := []).
  - intros [|fuel'] [] r; [discriminate|].
    intros [= <-]. exists tt. reflexivity.
  - constructor; [discriminate | constructor].
Defined.

(** A chunk that runs past the [int64] coordinate space is invisible to
    every range.  For a chunk with a non-negative offset whose end
    [offset+size] lies between [2^63] and [2^64], line 55 computes a
    negative end, so the chunk fails the range test for every range, also
    for the ranges that overlap it; a list of such chunks resolves to
    nothing. *)
Theorem range_test_past_int64 `{Collaborators}
        (lookupFileIdFn : LookupFileIdFunctionType)
        (subDataChunks subManifestChunks chunks : list FileChunk)
        (startOffset stopOffset : Z) (fuel : nat) (w : World) :
  Forall (fun c => 0 <= Offset c <= Int64.MaxInt64
                   /\ 0 <= Size c < Int64.modulus
                   /\ 2 ^ 63 <= Offset c + Size c < Int64.modulus)%Z chunks ->
  Forall (fun c => (chunk_end c < 0)%Z
                   /\ range_test startOffset stopOffset c = false) chunks
  /\ ResolveChunkManifest lookupFileIdFn subDataChunks subManifestChunks
                          (S fuel) chunks startOffset stopOffset w
     = Some (w, ([], [], None)).
Proof.
  intros Hpast.
  assert (Hall : Forall (fun c => (chunk_end c < 0)%Z
                                  /\ range_test startOffset stopOffset c = false)
                        chunks).
  { eapply Forall_impl; [|exact Hpast]. cbv beta. intros c (Ho & Hs & He).
    assert (Hend : chunk_end c = (Offset c + Size c - Int64.modulus)%Z).
    { unfold chunk_end, Int64.add, Int64.of_uint64. rewrite wrap_wrap_add.
      unfold Int64.wrap, Int64.modulus in *.
      change (2 ^ 63)%Z with 9223372036854775808%Z in *.
      change (2 ^ 64)%Z with 18446744073709551616%Z in *.
      replace (Offset c + Size c + 9223372036854775808)%Z
        with (Offset c + Size c - 9223372036854775808
              + 1 * 18446744073709551616)%Z by lia.
      rewrite Z.mod_add, Z.mod_small by lia. lia. }
    unfold range_test. rewrite Hend. unfold Int64.modulus in *.
    change (2 ^ 63)%Z with 9223372036854775808%Z in *.
    change (2 ^ 64)%Z with 18446744073709551616%Z in *.
    split; [lia|]. apply Z.ltb_ge. lia. }
  split; [exact Hall|].
  cbn [ResolveChunkManifest]. rewrite Forall_forall in Hall.
  rewrite resolve_loop_skips by (intros c Hc _; apply (Hall c Hc)). cbn [app].
  f_equal. f_equal. f_equal. f_equal.
  apply filter_none. apply Forall_forall. intros c Hc.
  now rewrite (proj2 (Hall c Hc)).
Qed.

(** A leaf of 100 bytes that starts 10 bytes before the end of the
    [int64] space, and a range that covers its first bytes. *)
Lemma range_test_past_int64_witness :
  Forall (fun c => (chunk_end c < 0)%Z
                   /\ range_test 0 Int64.MaxInt64 c = false)
         [Store.leaf "end" (Int64.MaxInt64 - 10) 100]
  /\ @ResolveChunkManifest Store.collaborators Store.lookup [] [] 1
                           [Store.leaf "end" (Int64.MaxInt64 - 10) 100]
                           0 Int64.MaxInt64 tt
     = Some (tt, ([], [], None)).
Proof.
  apply (@range_test_past_int64 Store.collaborators Store.lookup [] []
           [Store.leaf "end" (Int64.MaxInt64 - 10) 100] 0 Int64.MaxInt64 0 tt).
  constructor; [|constructor].
  vm_compute. repeat split; discriminate.
Defined.

(** [doMaybeManifestize] for any positive merge factor: with fuel for the
    full batches it returns; when merging the full batches of the leaves
    in order succeeds, the result is the manifest chunks of the input, the
    manifest chunks made and the leftover leaves, and when one merge
    fails, the error and the leaves. *)
Theorem doMaybeManifestize_any_factor `{Collaborators}
        (saveFunc : SaveDataAsChunkFunctionType) (mergeFactor : nat)
        (inputChunks : list FileChunk) (fuel : nat) (w : World) :
  let manifests := filter IsChunkManifest inputChunks in
  let leaves := filter (fun c => negb (IsChunkManifest c)) inputChunks in
  let k := length leaves / mergeFactor in
  0 < mergeFactor ->
  k < fuel ->
  exists w' merged handed e,
    merge_each saveFunc (full_batches mergeFactor leaves) w = (w', merged, handed, e)
    /\ doMaybeManifestize saveFunc mergeFactor mergeIntoManifest inputChunks fuel w
       = Some (w', match e with
                   | None => (manifests ++ merged ++ skipn (k * mergeFactor) leaves,
                              None)
                   | Some e =>
                       (map BeforeEntrySerialization
                            (firstn (handed * mergeFactor) leaves)
                          ++ skipn (handed * mergeFactor) leaves, Some e)
                   end)
    /\ (e = None -> length merged = k)
    /\ length (skipn (k * mergeFactor) leaves) < mergeFactor.
Proof.
  intros manifests leaves k Hpos Hfuel.
  assert (Hk : k * mergeFactor <= length leaves < S k * mergeFactor).
  { unfold k. split.
    - rewrite Nat.mul_comm. apply Nat.Div0.mul_div_le.
    - rewrite Nat.mul_comm. apply Nat.mul_succ_div_gt. lia. }
  pose proof (merge_batches_outcome saveFunc mergeFactor Hpos k fuel [] leaves
                manifests w Hfuel Hk) as Hrun.
  cbn [app length] in Hrun. unfold loop_outcome in Hrun.
  unfold doMaybeManifestize. rewrite separate_from_filter. cbn [app].
  fold leaves manifests. rewrite Hrun. unfold full_batches. fold k.
  destruct (merge_each saveFunc (batches_of k mergeFactor leaves) w)
    as [[[w' merged] handed] e] eqn:Hm.
  exists w', merged, handed, e. split; [reflexivity|]. split.
  { destruct e; reflexivity. }
  split.
  - intros ->. destruct (merge_each_success _ _ _ _ _ _ Hm) as [Hlen _].
    now rewrite Hlen, batches_of_length.
  - rewrite length_skipn. lia.
Qed.

(** Five leaves merged two by two. *)
Lemma doMaybeManifestize_any_factor_witness :
  exists m1 m2,
    @doMaybeManifestize Store.collaborators Store.save 2 mergeIntoManifest
                        (Store.leaves 5) 3 tt
    = Some (tt, ([m1; m2] ++ skipn 4 (Store.leaves 5), None))
    /\ Offset m1 = 0%Z /\ Size m1 = 20%Z /\ Offset m2 = 20%Z /\ Size m2 = 20%Z.
Proof.
  destruct (@doMaybeManifestize_any_factor Store.collaborators Store.save 2
              (Store.leaves 5) 3 tt) as (w' & merged & handed & e & Hm & Hrun & _).
  - lia.
  - vm_compute. lia.
  - vm_compute in Hm. inversion Hm; subst. clear Hm.
    eexists. eexists. split; [exact Hrun|]. repeat split.
Defined.
